(** * The Zod adapter of vee-validate: [packages/zod/src/index.ts]

    A shallow embedding of [toTypedSchema] (its three operations [parse],
    [cast] and [describe]) and of the private helpers [processIssues],
    [getDefaults] and [getSchemaForPath], followed by the properties the
    specification states about them. *)

From Stdlib Require Import List String Ascii NArith ZArith Bool Lia Permutation Sorted DecimalString.
Import ListNotations.
Open Scope string_scope.

Set Warnings "-register-all".

(** ** JavaScript values and completions *)

Inductive JsValue : Type :=
| JsUndefined
| JsNull
| JsBool (b : bool)
| JsNumber (n : Z)
| JsString (s : string)
| JsArray (items : list JsValue)
| JsObject (props : list (string * JsValue)).

(** A call either returns or throws; [try]/[catch] is a match on it. *)
Inductive Completion (A : Type) : Type :=
| Normal (a : A)
| Throw (e : JsValue).
Arguments Normal {A} a.
Arguments Throw {A} e.

(** The error thrown by a call of something that is no function and by a
    read of a property of [undefined]. *)
Definition TypeError : JsValue := JsString "TypeError".

Definition bind {A B} (c : Completion A) (k : A -> Completion B) : Completion B :=
  match c with
  | Normal a => k a
  | Throw e => Throw e
  end.

Notation "x <- c ;; k" := (bind c (fun x => k))
  (at level 61, c at next level, right associativity).

(** ** Plain objects used as string-keyed maps

    An object is represented by its own properties in creation order.
    Reading the properties back ([Object.values], [Object.entries]) follows
    the own-property-key order of the language: keys that are array indices
    (canonical decimal strings below 2^32 - 1) come first in ascending
    numeric order, then the remaining keys in creation order.  A read
    [o[k]] of a key that is no own property finds the member of
    [Object.prototype] of that name, if there is one. *)
Module Obj.

Section Props.
Context {A : Type}.

(** [o[k]] *)
Fixpoint get (k : string) (o : list (string * A)) : option A :=
  match o with
  | [] => None
  | (k', v) :: rest => if k' =? k then Some v else get k rest
  end.

(** [o[k] = v]: an existing property keeps its position, a new one is
    created last. *)
Fixpoint set (k : string) (v : A) (o : list (string * A)) : list (string * A) :=
  match o with
  | [] => [(k, v)]
  | (k', v') :: rest =>
      if k' =? k then (k', v) :: rest else (k', v') :: set k v rest
  end.

Fixpoint insertIndexed (e : N * (string * A)) (l : list (N * (string * A)))
  : list (N * (string * A)) :=
  match l with
  | [] => [e]
  | e' :: rest =>
      if (fst e <=? fst e')%N then e :: l else e' :: insertIndexed e rest
  end.

Fixpoint sortIndexed (l : list (N * (string * A))) : list (N * (string * A)) :=
  match l with
  | [] => []
  | e :: rest => insertIndexed e (sortIndexed rest)
  end.
End Props.

(** The array index a property key denotes, if it is one. *)
Definition arrayIndex (k : string) : option N :=
  match NilEmpty.uint_of_string k with
  | Some u =>
      let n := N.of_uint u in
      if (NilEmpty.string_of_uint (N.to_uint n) =? k) && (n <? 4294967295)%N
      then Some n else None
  | None => None
  end.

Definition isArrayIndex (k : string) : bool :=
  match arrayIndex k with Some _ => true | None => false end.

(** The names of the members every plain object inherits from
    [Object.prototype]; each of them is a function, but [__proto__], which
    is the prototype itself. *)
Definition inheritedNames : list string :=
  [ "constructor"; "__defineGetter__"; "__defineSetter__"; "hasOwnProperty";
    "__lookupGetter__"; "__lookupSetter__"; "isPrototypeOf";
    "propertyIsEnumerable"; "toString"; "valueOf"; "__proto__";
    "toLocaleString" ].

Definition inheritedName (k : string) : bool :=
  existsb (String.eqb k) inheritedNames.

(** What a read [o[k]] of a plain object finds. *)
Inductive Read (A : Type) : Type :=
| Own (a : A)
| FromPrototype
| Undefined.
Arguments Own {A} a.
Arguments FromPrototype {A}.
Arguments Undefined {A}.

Definition read {A} (k : string) (o : list (string * A)) : Read A :=
  match get k o with
  | Some v => Own v
  | None => if inheritedName k then FromPrototype else Undefined
  end.

Section Order.
Context {A : Type}.

Definition indexed (o : list (string * A)) : list (N * (string * A)) :=
  flat_map (fun e => match arrayIndex (fst e) with
                     | Some n => [(n, e)]
                     | None => []
                     end) o.

Definition named (o : list (string * A)) : list (string * A) :=
  filter (fun e => negb (isArrayIndex (fst e))) o.

(** Own enumerable properties in the order the language enumerates them. *)
Definition ownEntries (o : list (string * A)) : list (string * A) :=
  map snd (sortIndexed (indexed o)) ++ named o.
End Order.

End Obj.

Definition Object_entries {A} (o : list (string * A)) : list (string * A) :=
  Obj.ownEntries o.

Definition Object_values {A} (o : list (string * A)) : list A :=
  map snd (Obj.ownEntries o).

Definition Object_fromEntries {A} (entries : list (string * A)) : list (string * A) :=
  fold_left (fun o kv => Obj.set (fst kv) (snd kv) o) entries [].

(** ** The schema library's data, as far as the adapter inspects it *)

(** Schema classes the adapter never looks into. *)
Inductive ZodLeafKind : Type :=
| ZodString | ZodNumber | ZodBoolean | ZodDate | ZodLiteral | ZodEnum
| ZodUnion | ZodRecord | ZodTuple | ZodAny.

(** A schema, by its class.  The default of a [ZodDefault] is given by
    what evaluating it does: it returns a value or throws.  The type also
    holds the values the adapter may come to treat as a schema without
    their being one: the members of [Object.prototype] that a read of
    [shape[p]] finds under an inherited name. *)
Inductive ZodSchema : Type :=
| ZodObject (shape : list (string * ZodSchema))
| ZodArray (type : ZodSchema)
| ZodDefault (innerType : ZodSchema) (defaultValue : Completion JsValue)
| ZodOptional (innerType : ZodSchema)
| ZodLeaf (kind : ZodLeafKind)
| Inherited (name : string).

(** How the schema library lays a schema's definition out, as far as the
    adapter reads it.  In the layout of zod 3 the definition holds the
    schema's [typeName] (['ZodObject'], ['ZodArray'], ...) and the default of
    a [ZodDefault] as a function to call.  In the layout of zod 4 it holds no
    [typeName], neither under [_def] nor under [_zod.def], and the default as
    a value that is read, not called. *)
Inductive ZodLayout : Type :=
| Zod3
| Zod4.

Definition leafTypeName (k : ZodLeafKind) : string :=
  match k with
  | ZodString => "ZodString" | ZodNumber => "ZodNumber"
  | ZodBoolean => "ZodBoolean" | ZodDate => "ZodDate"
  | ZodLiteral => "ZodLiteral" | ZodEnum => "ZodEnum"
  | ZodUnion => "ZodUnion" | ZodRecord => "ZodRecord"
  | ZodTuple => "ZodTuple" | ZodAny => "ZodAny"
  end.

(** [schema.shape] (only read on object schemas). *)
Definition shape (schema : ZodSchema) : list (string * ZodSchema) :=
  match schema with
  | ZodObject sh => sh
  | _ => []
  end.

(** [schema._def?.type || schema._zod?.def?.type || null], which the adapter
    reads on schemas whose [typeName] is ['ZodArray'] only: the schema of the
    elements. *)
Definition def_type (schema : ZodSchema) : option ZodSchema :=
  match schema with
  | ZodArray t => Some t
  | _ => None
  end.

(** [shape[p] || null]: the field of that name, or the member of
    [Object.prototype] of that name. *)
Definition readShape (p : string) (sh : list (string * ZodSchema)) : option ZodSchema :=
  match Obj.read p sh with
  | Obj.Own field => Some field
  | Obj.FromPrototype => Some (Inherited p)
  | Obj.Undefined => None
  end.

Inductive PathSeg : Type :=
| PKey (k : string)
| PIndex (i : N).

(** A validation issue.  [unionErrors] is [Some] when the issue has a truthy
    [unionErrors] property; each of its errors is given by its [issues].
    [errors] is the property under which zod 4 carries the issue lists of the
    branches of a union. *)
Inductive ZodIssue : Type :=
| mkZodIssue (code : string) (path : list PathSeg) (message : string)
             (unionErrors : option (list (list ZodIssue)))
             (errors : option (list (list ZodIssue))).

Definition issue_code (i : ZodIssue) : string :=
  match i with mkZodIssue c _ _ _ _ => c end.
Definition issue_path (i : ZodIssue) : list PathSeg :=
  match i with mkZodIssue _ p _ _ _ => p end.
Definition issue_message (i : ZodIssue) : string :=
  match i with mkZodIssue _ _ m _ _ => m end.
Definition issue_unionErrors (i : ZodIssue) : option (list (list ZodIssue)) :=
  match i with mkZodIssue _ _ _ u _ => u end.
Definition issue_errors (i : ZodIssue) : option (list (list ZodIssue)) :=
  match i with mkZodIssue _ _ _ _ e => e end.

Inductive SafeParseReturnType : Type :=
| SafeParseSuccess (data : JsValue)
| SafeParseError (issues : list ZodIssue).

(** ** The typed-schema interface of the form library *)

Record TypedSchemaError : Type := { path : string; errors : list string }.

Record ParseOutput : Type :=
  { value : option JsValue; output_errors : list TypedSchemaError }.

Record PathDescription : Type := { required : bool; exists_ : bool }.

Definition ErrorMap : Type := list (string * TypedSchemaError).

(** ** String helpers *)

Definition segString (s : PathSeg) : string :=
  match s with
  | PKey k => k
  | PIndex i => NilZero.string_of_uint (N.to_uint i)
  end.

(** [issue.path.join('.')] *)
Definition join (sep : string) (segs : list PathSeg) : string :=
  String.concat sep (map segString segs).

Definition isDigit (c : ascii) : bool :=
  let n := nat_of_ascii c in (48 <=? n)%nat && (n <=? 57)%nat.

Fixpoint takeDigits (s : string) : string :=
  match s with
  | String c rest => if isDigit c then String c (takeDigits rest) else EmptyString
  | EmptyString => EmptyString
  end.

Fixpoint dropDigits (s : string) : string :=
  match s with
  | String c rest => if isDigit c then dropDigits rest else s
  | EmptyString => EmptyString
  end.

(** A match of [\[(\d+)\]] at the start of [s]: the captured digits. *)
Definition matchIndex (s : string) : option string :=
  match s with
  | String "[" rest =>
      match takeDigits rest, dropDigits rest with
      | String d ds, String "]" _ => Some (String d ds)
      | _, _ => None
      end
  | _ => None
  end.

(** [s.split(/\.|\[(\d+)\]/)]: the pieces between the matches, each match
    followed by its capture group ([None] is [undefined], the capture of a
    match of the first alternative).  [skip] characters belong to the match
    in progress; [piece] is the piece read so far. *)
Fixpoint splitFrom (s : string) (skip : nat) (piece : string) : list (option string) :=
  match s with
  | EmptyString => [Some piece]
  | String c rest =>
      match skip with
      | S k => splitFrom rest k piece
      | O =>
          if Ascii.eqb c "." then Some piece :: None :: splitFrom rest 0 ""
          else match matchIndex s with
               | Some ds => Some piece :: Some ds :: splitFrom rest (S (String.length ds)) ""
               | None => splitFrom rest 0 (piece ++ String c "")
               end
      end
  end.

Definition split (s : string) : list (option string) := splitFrom s 0 "".

(** [.filter(Boolean)] on an array of strings and [undefined]. *)
Fixpoint filterBoolean (l : list (option string)) : list string :=
  match l with
  | [] => []
  | Some (String c s) :: rest => String c s :: filterBoolean rest
  | _ :: rest => filterBoolean rest
  end.

(** Modelled from the spec: the path helpers of the form library and of its
    shared package, whose sources are not part of this package.  The
    adapter below is parameterised by these helpers; the models here only
    instantiate it on concrete inputs. *)
Module Shared.

(** Modelled from the spec: [isObject], "a plain mapping". *)
Definition isObject (v : JsValue) : bool :=
  match v with
  | JsObject _ => true
  | _ => false
  end.

(** Modelled from the spec: [isIndex], "a numeric index". *)
Definition isIndex (p : string) : bool :=
  match p with
  | EmptyString => false
  | _ => match dropDigits p with EmptyString => true | _ => false end
  end.

(** Modelled from the spec: [normalizeFormPath], "collapses bracket-index
    syntax into the canonical dotted form": every [[n]] becomes [.n]. *)
Fixpoint normalizeFrom (s : string) (skip : nat) : string :=
  match s with
  | EmptyString => EmptyString
  | String c rest =>
      match skip with
      | S k => normalizeFrom rest k
      | O => match matchIndex s with
             | Some ds => String "." (ds ++ normalizeFrom rest (S (String.length ds)))
             | None => String c (normalizeFrom rest 0)
             end
      end
  end.

Definition normalizeFormPath (p : string) : string := normalizeFrom p 0.

(** Modelled from the spec: [isNotNestedPath], "a single non-nested key
    (no dots, no bracket indices)". *)
Definition isNotNestedPath (p : string) : bool :=
  match split p with
  | [Some _] => true
  | _ => false
  end.

(** Modelled from the spec: [cleanupNonNestedPath]; a non-nested key is
    looked up "directly in the root's field map". *)
Definition cleanupNonNestedPath (p : string) : string := p.

(** Modelled from the spec: [merge], "shallow-merging value over those
    defaults (caller-provided fields win)". *)
Definition merge (target source : JsValue) : JsValue :=
  match target, source with
  | JsObject t, JsObject s =>
      JsObject (fold_left (fun o kv => Obj.set (fst kv) (snd kv) o) (Object_entries s) t)
  | _, _ => target
  end.

End Shared.

(** ** Sample schemas, issues and library behaviours *)
Module Sample.

(** [z.object({ name: z.string(), items: z.array(z.object({ name: z.string() })) })] *)
Definition itemSchema : ZodSchema := ZodObject [("name", ZodLeaf ZodString)].

Definition listSchema : ZodSchema :=
  ZodObject [("name", ZodLeaf ZodString); ("items", ZodArray itemSchema)].

(** [z.object({ name: z.string().default("anonymous"),
                address: z.object({ city: z.string().default("Oslo"), zip: z.string() }),
                age: z.number() })] *)
Definition profileSchema : ZodSchema :=
  ZodObject [("name", ZodDefault (ZodLeaf ZodString) (Normal (JsString "anonymous")));
             ("address", ZodObject [("city", ZodDefault (ZodLeaf ZodString)
                                               (Normal (JsString "Oslo")));
                                    ("zip", ZodLeaf ZodString)]);
             ("age", ZodLeaf ZodNumber)].

(** [isOptional] of the library on the sample schemas. *)
Definition isOptional (s : ZodSchema) : Completion bool :=
  match s with
  | ZodOptional _ | ZodDefault _ _ | ZodLeaf ZodAny => Normal true
  | _ => Normal false
  end.

(** A library whose [isOptional] fails on date schemas. *)
Definition isOptionalThrowing (s : ZodSchema) : Completion bool :=
  match s with
  | ZodLeaf ZodDate => Throw (JsString "Synchronous parse encountered promise.")
  | _ => isOptional s
  end.

(** Issues of [z.array(z.string()).min(2)] on [[5]]. *)
Definition arrayIssues : list ZodIssue :=
  [ mkZodIssue "too_small" [] "Array must contain at least 2 element(s)" None None;
    mkZodIssue "invalid_type" [PIndex 0] "Expected string, received number" None None ].

(** Issues of [z.object({ email: ..., age: ... })] on an invalid input,
    with two issues on [email]. *)
Definition formIssues : list ZodIssue :=
  [ mkZodIssue "invalid_string" [PKey "email"] "Invalid email format" None None;
    mkZodIssue "too_small" [PKey "age"] "Must be at least 18 years old" None None;
    mkZodIssue "too_small" [PKey "email"] "Email is too short" None None ].

(** The issue of [z.object({ data: z.union([z.object({ x: z.string() }),
    z.object({ x: z.number() })]) })] on [{ data: { x: true } }], with the
    issues of the branches under [unionErrors], as zod 3 reports it. *)
Definition unionIssue : ZodIssue :=
  mkZodIssue "invalid_union" [PKey "data"] "Invalid input"
    (Some [ [ mkZodIssue "invalid_type" [PKey "data"; PKey "x"]
                "Expected string, received boolean" None None ];
            [ mkZodIssue "invalid_type" [PKey "data"; PKey "x"]
                "Expected number, received boolean" None None ] ])
    None.

(** The issue of [z.union([z.string(), z.number()])] on [true], as zod 3
    reports it. *)
Definition rootUnionIssue : ZodIssue :=
  mkZodIssue "invalid_union" [] "Invalid input"
    (Some [ [ mkZodIssue "invalid_type" [] "Expected string, received boolean"
                None None ];
            [ mkZodIssue "invalid_type" [] "Expected number, received boolean"
                None None ] ])
    None.

(** The same two issues as zod 4 reports them: no [unionErrors], the issues
    of the branches under [errors]. *)
Definition unionIssueV4 : ZodIssue :=
  mkZodIssue "invalid_union" [PKey "data"] "Invalid input" None
    (Some [ [ mkZodIssue "invalid_type" [PKey "x"]
                "Invalid input: expected string, received boolean" None None ];
            [ mkZodIssue "invalid_type" [PKey "x"]
                "Invalid input: expected number, received boolean" None None ] ]).

Definition rootUnionIssueV4 : ZodIssue :=
  mkZodIssue "invalid_union" [] "Invalid input" None
    (Some [ [ mkZodIssue "invalid_type" []
                "Invalid input: expected string, received boolean" None None ];
            [ mkZodIssue "invalid_type" []
                "Invalid input: expected number, received boolean" None None ] ]).

(** The issue of [z.object({ toString: z.string() })] on [{}]: the input's
    inherited [toString] is no string. *)
Definition inheritedIssues : list ZodIssue :=
  [ mkZodIssue "invalid_type" [PKey "toString"]
      "Expected string, received function" None None ].


(** [z.object({ id: z.string().default(() => { throw new Error("no id") }) })] *)
Definition throwingDefaultSchema : ZodSchema :=
  ZodObject [("id", ZodDefault (ZodLeaf ZodString) (Throw (JsString "no id")))].

(** [z.object({ email: z.string().email(), age: z.number().min(18) })] and
    two inputs. *)
Definition formSchema : ZodSchema :=
  ZodObject [("email", ZodLeaf ZodString); ("age", ZodLeaf ZodNumber)].

Definition badForm : JsValue :=
  JsObject [("email", JsString "invalid-email"); ("age", JsNumber 15)].

Definition goodForm : JsValue :=
  JsObject [("email", JsString "test@example.com"); ("age", JsNumber 25)].

(** [z.object({ title: z.string(), when: z.date() })] *)
Definition eventSchema : ZodSchema :=
  ZodObject [("title", ZodLeaf ZodString); ("when", ZodLeaf ZodDate)].

(** Library behaviours: a safe validation that fails with given issues, one
    that accepts its input, and a strict parse that throws. *)
Definition failWith (issues : list ZodIssue)
  : ZodSchema -> JsValue -> JsValue -> Completion SafeParseReturnType :=
  fun _ _ _ => Normal (SafeParseError issues).

Definition accept : ZodSchema -> JsValue -> JsValue -> Completion SafeParseReturnType :=
  fun _ v _ => Normal (SafeParseSuccess v).

Definition rejectAll : ZodSchema -> JsValue -> Completion JsValue :=
  fun _ _ => Throw (JsString "ZodError").

End Sample.

(** ** The adapter *)

Section Adapter.

Set Default Proof Using "Type".

(** The layout of the schema library in use. *)
Variable layout : ZodLayout.

(** Helpers imported from the form library and its shared package. *)
Variable normalizeFormPath : string -> string.
Variable isNotNestedPath : string -> bool.
Variable cleanupNonNestedPath : string -> string.
Variable isIndex : string -> bool.
Variable isObject : JsValue -> bool.
Variable merge : JsValue -> JsValue -> JsValue.

(** Methods of the schema library: [schema.safeParseAsync(value, opts)]
    (awaited), [schema.parse(value)] and [schema.isOptional()]. *)
Variable safeParseAsync : ZodSchema -> JsValue -> JsValue -> Completion SafeParseReturnType.
Variable zodParse : ZodSchema -> JsValue -> Completion JsValue.
Variable isOptionalMethod : ZodSchema -> Completion bool.

(** The build flag [__DEV__]. *)
Variable DEV : bool.

(** [schema.isOptional()]: a member of [Object.prototype] has no such
    method, the call throws. *)
Definition isOptional (schema : ZodSchema) : Completion bool :=
  match schema with
  | Inherited _ => Throw TypeError
  | _ => isOptionalMethod schema
  end.

(** *** [processIssues] *)

(** [if (!errors[path]) errors[path] = { errors: [], path };
     errors[path].errors.push(message)].  Under a name inherited from
    [Object.prototype] the first read finds the inherited member, no entry
    is created, and [errors[path].errors] is [undefined]: the push throws. *)
Definition pushMessage (p message : string) (errs : ErrorMap) : Completion ErrorMap :=
  let errs1 :=
    match Obj.read p errs with
    | Obj.Undefined => Obj.set p {| path := p; errors := [] |} errs
    | _ => errs
    end in
  match Obj.read p errs1 with
  | Obj.Own entry =>
      Normal (Obj.set p {| path := path entry; errors := errors entry ++ [message] |}
                errs1)
  | _ => Throw TypeError
  end.

(** The body of the [forEach] callback; the recursive call on
    [unionErrors.flatMap(ue => ue.issues)] runs through the branches in
    order (see [processIssues_flatMap]).  The property [errors] of the issue
    is not read. *)
Fixpoint processIssue (issue : ZodIssue) (errs : ErrorMap) {struct issue}
  : Completion ErrorMap :=
  match issue with
  | mkZodIssue code ipath message unionErrors _ =>
      let p := normalizeFormPath (join "." ipath) in
      errs1 <-
        (if code =? "invalid_union" then
           match unionErrors with
           | Some ues =>
               (fix branches (ues : list (list ZodIssue)) (acc : ErrorMap)
                  : Completion ErrorMap :=
                  match ues with
                  | [] => Normal acc
                  | ue :: more =>
                      acc1 <-
                        (fix each (l : list ZodIssue) (acc : ErrorMap)
                           : Completion ErrorMap :=
                           match l with
                           | [] => Normal acc
                           | i :: rest =>
                               acc1 <- processIssue i acc ;; each rest acc1
                           end) ue acc ;;
                      branches more acc1
                  end) ues errs
           | None => Normal errs
           end
         else Normal errs) ;;
      if (code =? "invalid_union") && (p =? "") then Normal errs1
      else pushMessage p message errs1
  end.

Fixpoint processIssues (issues : list ZodIssue) (errs : ErrorMap)
  : Completion ErrorMap :=
  match issues with
  | [] => Normal errs
  | issue :: rest => errs1 <- processIssue issue errs ;; processIssues rest errs1
  end.

(** *** [getDefaults] *)

(** [value._def.defaultValue()]: in the layout of zod 3 the stored default
    is a function and the call evaluates it; in the layout of zod 4 reading
    it evaluates it, and calling the value that was read throws. *)
Definition callDefaultValue (defaultValue : Completion JsValue) : Completion JsValue :=
  match layout with
  | Zod3 => defaultValue
  | Zod4 => _ <- defaultValue ;; Throw TypeError
  end.

(** The entries the callback of [map] returns, up to the first call that
    throws. *)
Fixpoint sequenceEntries {A} (l : list (string * Completion A))
  : Completion (list (string * A)) :=
  match l with
  | [] => Normal []
  | (key, c) :: rest =>
      v <- c ;; entries <- sequenceEntries rest ;; Normal ((key, v) :: entries)
  end.

(** The fields are read back in property order after the callback is
    applied to them, which gives the same as the source's
    [Object.entries(schema.shape).map(...)] (see [getDefaults_entries]). *)
Fixpoint getDefaults (schema : ZodSchema) : Completion JsValue :=
  match schema with
  | ZodObject sh =>
      entries <-
        sequenceEntries
          (Object_entries
             (map (fun kv =>
                     (fst kv,
                      match snd kv with
                      | ZodDefault _ defaultValue => callDefaultValue defaultValue
                      | ZodObject _ => getDefaults (snd kv)
                      | _ => Normal JsUndefined
                      end)) sh)) ;;
      Normal (JsObject (Object_fromEntries entries))
  | _ => Normal JsUndefined
  end.

(** *** [getSchemaForPath] *)

(** The [typeName] the layout of zod 3 stores in a schema's definition. *)
Definition typeName (schema : ZodSchema) : option string :=
  match schema with
  | ZodObject _ => Some "ZodObject"
  | ZodArray _ => Some "ZodArray"
  | ZodDefault _ _ => Some "ZodDefault"
  | ZodOptional _ => Some "ZodOptional"
  | ZodLeaf k => Some (leafTypeName k)
  | Inherited _ => None
  end.

(** [schema._def?.typeName || schema._zod?.def?.typeName] *)
Definition getDefType (schema : ZodSchema) : option string :=
  match layout with
  | Zod3 => typeName schema
  | Zod4 => None
  end.

Definition isArraySchema (schema : ZodSchema) : bool :=
  match getDefType schema with
  | Some name => name =? "ZodArray"
  | None => false
  end.

Definition isObjectSchema (schema : ZodSchema) : bool :=
  match getDefType schema with
  | Some name => name =? "ZodObject"
  | None => false
  end.

(** The [for] loop: [fuel] iterations remain before [i <= paths.length]
    fails, after which the function returns [null]. *)
Fixpoint walk (fuel i : nat) (paths : list string) (currentSchema : option ZodSchema)
  : option ZodSchema :=
  match fuel with
  | O => None
  | S fuel' =>
      match nth_error paths i, currentSchema with
      | Some (String c s), Some cur =>
          let p := String c s in
          if isObjectSchema cur then
            walk fuel' (S i) paths (readShape p (shape cur))
          else if isIndex p && isArraySchema cur then
            walk fuel' (S i) paths (def_type cur)
          else walk fuel' (S i) paths currentSchema
      | _, _ => currentSchema
      end
  end.

Definition getSchemaForPath (p : string) (schema : ZodSchema) : option ZodSchema :=
  if negb (isObjectSchema schema) then None
  else if isNotNestedPath p then readShape (cleanupNonNestedPath p) (shape schema)
  else
    let paths := filterBoolean (split p) in
    walk (S (List.length paths)) 0 paths (Some schema).

(** *** [toTypedSchema] *)

Variable zodSchema : ZodSchema.
Variable opts : JsValue.

Definition parse (v : JsValue) : Completion ParseOutput :=
  match safeParseAsync zodSchema v opts with
  | Throw e => Throw e
  | Normal (SafeParseSuccess data) =>
      Normal {| value := Some data; output_errors := [] |}
  | Normal (SafeParseError issues) =>
      errs <- processIssues issues [] ;;
      Normal {| value := None; output_errors := Object_values errs |}
  end.

Definition cast (values : JsValue) : Completion JsValue :=
  match zodParse zodSchema values with
  | Normal v => Normal v
  | Throw _ =>
      defaults <- getDefaults zodSchema ;;
      if isObject defaults && isObject values then Normal (merge defaults values)
      else Normal values
  end.

Definition notFound : PathDescription := {| required := false; exists_ := false |}.

(** The [try] block of [describe]. *)
Definition describeTry (p : option string) : Completion PathDescription :=
  match p with
  | None | Some EmptyString =>
      match isOptional zodSchema with
      | Normal b => Normal {| required := negb b; exists_ := true |}
      | Throw e => Throw e
      end
  | Some p =>
      match getSchemaForPath p zodSchema with
      | None => Normal notFound
      | Some description =>
          match isOptional description with
          | Normal b => Normal {| required := negb b; exists_ := true |}
          | Throw e => Throw e
          end
      end
  end.

(** [describe] returns its result together with the lines it wrote with
    [console.warn]. *)
Definition describe (p : option string) : Completion PathDescription * list string :=
  match describeTry p with
  | Normal d => (Normal d, [])
  | Throw _ =>
      (Normal notFound,
       if DEV then
         ["Failed to describe path "
            ++ match p with Some s => s | None => "undefined" end
            ++ " on the schema, returning a default description."]
       else [])
  end.

(** *** Notions used to state the properties *)

Definition isUnion (issue : ZodIssue) : bool :=
  issue_code issue =? "invalid_union".

Definition normalizedPath (issue : ZodIssue) : string :=
  normalizeFormPath (join "." (issue_path issue)).

(** [unionErrors.flatMap(ue => ue.issues)], empty without [unionErrors]. *)
Definition branchIssues (issue : ZodIssue) : list ZodIssue :=
  match issue_unionErrors issue with
  | Some ues => flat_map (fun ue => ue) ues
  | None => []
  end.

(** The (normalized path, message) pairs an issue gets recorded, in the
    order [processIssues] records them. *)
Fixpoint recorded (issue : ZodIssue) : list (string * string) :=
  match issue with
  | mkZodIssue code ipath message unionErrors _ =>
      let p := normalizeFormPath (join "." ipath) in
      (if code =? "invalid_union" then
         match unionErrors with
         | Some ues => flat_map (fun ue => flat_map recorded ue) ues
         | None => []
         end
       else [])
      ++ (if (code =? "invalid_union") && (p =? "") then [] else [(p, message)])
  end.

Definition recordedAll (issues : list ZodIssue) : list (string * string) :=
  flat_map recorded issues.

(** No recorded path names a member inherited from [Object.prototype]. *)
Definition plainPaths (l : list (string * string)) : bool :=
  forallb (fun pm => negb (Obj.inheritedName (fst pm))) l.

(** What [pushMessage] does to the error map when it returns. *)
Definition recordMessage (p message : string) (errs : ErrorMap) : ErrorMap :=
  let errs1 :=
    match Obj.get p errs with
    | Some _ => errs
    | None => Obj.set p {| path := p; errors := [] |} errs
    end in
  match Obj.get p errs1 with
  | Some entry =>
      Obj.set p {| path := path entry; errors := errors entry ++ [message] |} errs1
  | None => errs1
  end.

Definition pushAll (l : list (string * string)) (errs : ErrorMap) : ErrorMap :=
  fold_left (fun acc pm => recordMessage (fst pm) (snd pm) acc) l errs.

(** [pushMessage] on a list of (path, message) pairs, in order. *)
Fixpoint pushMessages (l : list (string * string)) (errs : ErrorMap)
  : Completion ErrorMap :=
  match l with
  | [] => Normal errs
  | pm :: rest =>
      errs1 <- pushMessage (fst pm) (snd pm) errs ;; pushMessages rest errs1
  end.

Definition mem (x : string) (l : list string) : bool := existsb (String.eqb x) l.

(** The distinct elements of a list, each at its first occurrence. *)
Fixpoint firstSeen (l : list string) : list string :=
  match l with
  | [] => []
  | x :: rest => x :: filter (fun y => negb (y =? x)) (firstSeen rest)
  end.

(** The messages recorded at path [p], in order. *)
Definition messagesAt (p : string) (l : list (string * string)) : list string :=
  map snd (filter (fun pm => fst pm =? p) l).

Definition entryOf (l : list (string * string)) (p : string) : string * TypedSchemaError :=
  (p, {| path := p; errors := messagesAt p l |}).

(** Array-index keys in ascending numeric order. *)
Definition indexLe (a b : string) : Prop :=
  match Obj.arrayIndex a, Obj.arrayIndex b with
  | Some x, Some y => (x <= y)%N
  | _, _ => False
  end.

(** [b] is [u] or occurs, at any depth, in the branches of [u]. *)
Inductive reportedWithin : ZodIssue -> ZodIssue -> Prop :=
| within_here : forall u, reportedWithin u u
| within_branch : forall u c b,
    isUnion u = true -> In c (branchIssues u) -> reportedWithin c b ->
    reportedWithin u b.

(** An issue whose own message [processIssues] drops. *)
Definition silent (issue : ZodIssue) : bool :=
  isUnion issue && (normalizedPath issue =? "").

(** The loop of [getSchemaForPath], by recursion on the segments that
    remain (see [walk_resolve]). *)
Fixpoint resolve (segments : list string) (currentSchema : option ZodSchema)
  : option ZodSchema :=
  match segments, currentSchema with
  | p :: rest, Some cur =>
      if isObjectSchema cur then resolve rest (readShape p (shape cur))
      else if isIndex p && isArraySchema cur then resolve rest (def_type cur)
      else resolve rest currentSchema
  | _, _ => currentSchema
  end.

(** What the callback of [getDefaults] does for a field of an object
    schema. *)
Definition fieldDefault (field : ZodSchema) : Completion JsValue :=
  match field with
  | ZodDefault _ defaultValue => callDefaultValue defaultValue
  | ZodObject _ => getDefaults field
  | _ => Normal JsUndefined
  end.

Definition returns {A} (c : Completion A) : bool :=
  match c with
  | Normal _ => true
  | Throw _ => false
  end.

(** [schema instanceof ZodObject] *)
Definition isZodObject (schema : ZodSchema) : bool :=
  match schema with
  | ZodObject _ => true
  | _ => false
  end.

(** [!path] *)
Definition noPath (p : option string) : bool :=
  match p with
  | None | Some EmptyString => true
  | Some _ => false
  end.

(** A key that holds no separator of the path syntax. *)
Fixpoint plainKey (s : string) : bool :=
  match s with
  | EmptyString => true
  | String c rest =>
      negb (Ascii.eqb c ".") && negb (Ascii.eqb c "[") && plainKey rest
  end.

(** A non-empty string of decimal digits. *)
Fixpoint onlyDigits (s : string) : bool :=
  match s with
  | EmptyString => false
  | String c EmptyString => isDigit c
  | String c rest => isDigit c && onlyDigits rest
  end.

(** The segments [getSchemaForPath] walks over. *)
Definition segments (p : string) : list string := filterBoolean (split p).

(** Propositional reasoning that leaves the section's parameters out
    of the proof. *)
Ltac prop :=
  try clear zodSchema; try clear opts; try clear DEV; try clear isOptionalMethod;
  try clear zodParse; try clear safeParseAsync; try clear merge;
  try clear isObject; try clear isIndex; try clear cleanupNonNestedPath;
  try clear isNotNestedPath; try clear normalizeFormPath; try clear layout;
  tauto.

(** *** Facts on objects used as maps *)

Lemma get_set_same : forall {A} k (v : A) o, Obj.get k (Obj.set k v o) = Some v.
Proof.
  intros A k v o. induction o as [|[k' v'] o IH]; simpl.
  - now rewrite String.eqb_refl.
  - destruct (k' =? k) eqn:E; simpl; rewrite E; auto.
Qed.

Lemma get_None_notin : forall {A} k (o : list (string * A)),
    Obj.get k o = None <-> ~ In k (map fst o).
Proof.
  intros A k o. induction o as [|[k' v'] o IH]; simpl.
  - prop.
  - destruct (k' =? k) eqn:E.
    + apply String.eqb_eq in E. split; [discriminate | intros H; exfalso; auto].
    + apply String.eqb_neq in E. rewrite IH. prop.
Qed.

Lemma get_In : forall {A} k (v : A) o, Obj.get k o = Some v -> In (k, v) o.
Proof.
  intros A k v o. induction o as [|[k' v'] o IH]; simpl; [discriminate|].
  destruct (k' =? k) eqn:E.
  - apply String.eqb_eq in E. intros [= ->]. subst. now left.
  - intros H. right. auto.
Qed.

Lemma In_get : forall {A} k (v : A) o,
    NoDup (map fst o) -> In (k, v) o -> Obj.get k o = Some v.
Proof.
  intros A k v o. induction o as [|[k' v'] o IH]; simpl; [prop|].
  intros Hnd [H|H].
  - inversion H; subst. now rewrite String.eqb_refl.
  - inversion Hnd as [|? ? Hnotin Hnd']; subst.
    destruct (k' =? k) eqn:E.
    + apply String.eqb_eq in E. subst k'. exfalso. apply Hnotin.
      change k with (fst (k, v)). now apply in_map.
    + auto.
Qed.

Lemma set_absent : forall {A} k (v : A) o,
    ~ In k (map fst o) -> Obj.set k v o = (o ++ [(k, v)])%list.
Proof.
  intros A k v o. induction o as [|[k' v'] o IH]; simpl; auto.
  intros H. destruct (k' =? k) eqn:E.
  - apply String.eqb_eq in E. exfalso. auto.
  - f_equal. apply IH. prop.
Qed.

Lemma keys_set_present : forall {A} k (v : A) o,
    In k (map fst o) -> map fst (Obj.set k v o) = map fst o.
Proof.
  intros A k v o. induction o as [|[k' v'] o IH]; simpl; [prop|].
  intros H. destruct (k' =? k) eqn:E; simpl; auto.
  f_equal. apply IH. destruct H as [H|H]; auto.
  apply String.eqb_neq in E. contradiction.
Qed.

(** Overwriting the property [k] of an object whose property values are
    a function of their keys. *)
Lemma set_map_present : forall {A} (g : string -> A) k v ks,
    NoDup ks -> In k ks ->
    Obj.set k v (map (fun q => (q, g q)) ks)
    = map (fun q => (q, if q =? k then v else g q)) ks.
Proof.
  intros A g k v ks Hnd. induction Hnd as [|q ks Hnin Hnd IH]; simpl; [prop|].
  intros H. destruct (q =? k) eqn:E.
  - apply String.eqb_eq in E. subst q. f_equal.
    apply map_ext_in. intros a Ha.
    destruct (a =? k) eqn:E'; auto.
    apply String.eqb_eq in E'. subst. contradiction.
  - destruct H as [H|H]; [apply String.eqb_neq in E; congruence|].
    now rewrite IH.
Qed.

(** *** Facts on [firstSeen] and [messagesAt] *)

Lemma firstSeen_In : forall x l, In x (firstSeen l) <-> In x l.
Proof.
  intros x l. induction l as [|y l IH]; simpl; [prop|].
  rewrite filter_In, IH, negb_true_iff, String.eqb_neq.
  destruct (string_dec y x) as [->|Hne]; [prop|].
  split; [prop|]. intros [H|H]; [prop|]. right. split; auto.
Qed.

Lemma firstSeen_NoDup : forall l, NoDup (firstSeen l).
Proof.
  induction l as [|y l IH]; simpl; constructor.
  - rewrite filter_In, negb_true_iff, String.eqb_neq. prop.
  - now apply NoDup_filter.
Qed.

Lemma firstSeen_snoc : forall l p,
    firstSeen (l ++ [p]) = if mem p l then firstSeen l else (firstSeen l ++ [p])%list.
Proof.
  induction l as [|x l IH]; intros p; simpl; auto.
  rewrite IH. destruct (p =? x) eqn:E; simpl.
  - apply String.eqb_eq in E. subst x.
    destruct (mem p l); auto.
    rewrite filter_app. simpl. rewrite String.eqb_refl. simpl.
    now rewrite app_nil_r.
  - destruct (mem p l); auto.
    rewrite filter_app. simpl. rewrite E. reflexivity.
Qed.

Lemma mem_In : forall x l, mem x l = true <-> In x l.
Proof.
  intros x l. unfold mem. rewrite existsb_exists. split.
  - intros [y [Hy E]]. apply String.eqb_eq in E. now subst.
  - intros H. exists x. split; auto. apply String.eqb_refl.
Qed.

Lemma messagesAt_app : forall p l1 l2,
    messagesAt p (l1 ++ l2) = (messagesAt p l1 ++ messagesAt p l2)%list.
Proof.
  intros. unfold messagesAt. now rewrite filter_app, map_app.
Qed.

Lemma messagesAt_absent : forall p l, ~ In p (map fst l) -> messagesAt p l = [].
Proof.
  intros p l. unfold messagesAt. induction l as [|[q m] l IH]; simpl; auto.
  intros H. destruct (q =? p) eqn:E.
  - apply String.eqb_eq in E. prop.
  - apply IH. prop.
Qed.


Lemma messagesAt_single : forall q p m,
    messagesAt q [(p, m)] = if p =? q then [m] else [].
Proof.
  intros. unfold messagesAt. simpl. now destruct (p =? q).
Qed.

(** *** [processIssues] records the pairs of [recordedAll] *)

Lemma get_entries : forall l ks p,
    In p ks -> Obj.get p (map (entryOf l) ks) = Some (snd (entryOf l p)).
Proof.
  intros l ks p. induction ks as [|q ks IH]; simpl; [prop|].
  intros H. destruct (q =? p) eqn:E.
  - apply String.eqb_eq in E. now subst.
  - apply IH. destruct H as [H|H]; auto. apply String.eqb_neq in E. contradiction.
Qed.

Lemma keys_entries : forall l ks, map fst (map (entryOf l) ks) = ks.
Proof.
  intros. rewrite map_map. simpl. apply map_id.
Qed.

Lemma recordMessage_present : forall l ks p m,
    NoDup ks -> In p ks ->
    recordMessage p m (map (entryOf l) ks) = map (entryOf (l ++ [(p, m)])) ks.
Proof.
  intros l ks p m Hnd Hin. unfold recordMessage.
  rewrite (get_entries l ks p Hin). rewrite (get_entries l ks p Hin). simpl.
  unfold entryOf at 1. rewrite (set_map_present _ _ _ _ Hnd Hin).
  apply map_ext. intros q. unfold entryOf.
  rewrite messagesAt_app, messagesAt_single.
  destruct (q =? p) eqn:E.
  - apply String.eqb_eq in E. subst q. now rewrite String.eqb_refl.
  - rewrite String.eqb_sym, E. now rewrite app_nil_r.
Qed.

Lemma recordMessage_absent : forall l ks p m,
    ~ In p ks -> ~ In p (map fst l) ->
    recordMessage p m (map (entryOf l) ks)
    = (map (entryOf (l ++ [(p, m)])) (ks ++ [p]))%list.
Proof.
  intros l ks p m Hnin Hnl. unfold recordMessage.
  assert (Hg : Obj.get p (map (entryOf l) ks) = None).
  { apply get_None_notin. now rewrite keys_entries. }
  rewrite Hg, get_set_same. simpl.
  rewrite (set_absent p _ (map (entryOf l) ks)) by now rewrite keys_entries.
  rewrite map_app. simpl.
  assert (Hs : forall (o : ErrorMap) v v', ~ In p (map fst o) ->
               Obj.set p v' (o ++ [(p, v)]) = (o ++ [(p, v')])%list).
  { induction o as [|[k e] o IHo]; simpl; intros v v' H.
    - now rewrite String.eqb_refl.
    - destruct (k =? p) eqn:E.
      + apply String.eqb_eq in E. prop.
      + f_equal. apply IHo. prop. }
  rewrite Hs by now rewrite keys_entries.
  f_equal.
  - apply map_ext_in. intros q Hq. unfold entryOf.
    rewrite messagesAt_app, messagesAt_single.
    destruct (p =? q) eqn:E.
    + apply String.eqb_eq in E. subst. contradiction.
    + now rewrite app_nil_r.
  - unfold entryOf. rewrite messagesAt_app, messagesAt_single, String.eqb_refl.
    now rewrite (messagesAt_absent p l Hnl).
Qed.

Lemma pushAll_empty : forall l,
    pushAll l [] = map (entryOf l) (firstSeen (map fst l)).
Proof.
  induction l as [|[p m] l IH] using rev_ind; [reflexivity|].
  unfold pushAll in *. rewrite fold_left_app. simpl. rewrite IH.
  rewrite map_app. simpl. rewrite firstSeen_snoc.
  destruct (mem p (map fst l)) eqn:Hm.
  - apply recordMessage_present; [apply firstSeen_NoDup|].
    apply firstSeen_In, mem_In, Hm.
  - apply recordMessage_absent.
    + intros H. apply (proj1 (firstSeen_In _ _)) in H.
      apply (proj2 (mem_In _ _)) in H. congruence.
    + intros H. apply (proj2 (mem_In _ _)) in H. congruence.
Qed.

Lemma pushAll_app : forall l1 l2 errs,
    pushAll (l1 ++ l2) errs = pushAll l2 (pushAll l1 errs).
Proof.
  intros. unfold pushAll. apply fold_left_app.
Qed.

(** Induction on issues through the branches of their [unionErrors]. *)
Lemma ZodIssue_nested_ind : forall (P : ZodIssue -> Prop),
    (forall code ipath message branches,
        P (mkZodIssue code ipath message None branches)) ->
    (forall code ipath message ues branches,
        Forall (Forall P) ues -> P (mkZodIssue code ipath message (Some ues) branches)) ->
    forall issue, P issue.
Proof.
  intros P HNone HSome.
  fix IH 1. intros [code ipath message [ues|] branches]; [|apply HNone].
  apply HSome.
  induction ues as [|ue ues IHues]; constructor; auto.
  induction ue as [|i ue IHue]; constructor; auto.
Qed.

Lemma bind_ext : forall {A B} (c : Completion A) (f g : A -> Completion B),
    (forall a, f a = g a) -> bind c f = bind c g.
Proof.
  intros A B [a|e] f g H; simpl; auto.
Qed.

Lemma bind_assoc : forall {A B C} (c : Completion A)
                          (f : A -> Completion B) (g : B -> Completion C),
    bind (bind c f) g = bind c (fun a => bind (f a) g).
Proof.
  intros A B C [a|e] f g; reflexivity.
Qed.

Lemma bind_Normal_r : forall {A} (c : Completion A), bind c (fun a => Normal a) = c.
Proof.
  intros A [a|e]; reflexivity.
Qed.

Lemma processIssues_app : forall l1 l2 errs,
    processIssues (l1 ++ l2) errs
    = (errs1 <- processIssues l1 errs ;; processIssues l2 errs1).
Proof.
  induction l1 as [|i l1 IH]; intros l2 errs; simpl; [reflexivity|].
  rewrite bind_assoc. apply bind_ext. intros a. apply IH.
Qed.

Lemma pushMessages_app : forall l1 l2 errs,
    pushMessages (l1 ++ l2) errs
    = (errs1 <- pushMessages l1 errs ;; pushMessages l2 errs1).
Proof.
  induction l1 as [|pm l1 IH]; intros l2 errs; simpl; [reflexivity|].
  rewrite bind_assoc. apply bind_ext. intros a. apply IH.
Qed.

(** The recursive call of the source, on the flattened branches. *)
Lemma processIssues_flatMap : forall code ipath message unionErrors branches errs,
    processIssue (mkZodIssue code ipath message unionErrors branches) errs
    = let p := normalizeFormPath (join "." ipath) in
      errs1 <-
        (if code =? "invalid_union" then
           match unionErrors with
           | Some ues => processIssues (flat_map (fun ue => ue) ues) errs
           | None => Normal errs
           end
         else Normal errs) ;;
      if (code =? "invalid_union") && (p =? "") then Normal errs1
      else pushMessage p message errs1.
Proof.
  intros code ipath message unionErrors branches errs. simpl.
  destruct unionErrors as [ues|]; [|reflexivity].
  destruct (code =? "invalid_union"); [|reflexivity].
  match goal with
  | |- bind ?a _ = bind ?b _ => assert (Heq : a = b); [|now rewrite Heq]
  end.
  revert errs. induction ues as [|ue ues IHues]; intros errs; simpl; [reflexivity|].
  rewrite processIssues_app.
  change ((fix each (l : list ZodIssue) (acc : ErrorMap) {struct l}
             : Completion ErrorMap :=
             match l with
             | [] => Normal acc
             | i :: rest => acc1 <- processIssue i acc ;; each rest acc1
             end) ue errs)
    with (processIssues ue errs).
  apply bind_ext. intros a. apply IHues.
Qed.

Lemma processIssue_recorded : forall issue errs,
    processIssue issue errs = pushMessages (recorded issue) errs.
Proof.
  induction issue as [code ipath message branches|code ipath message ues branches IH]
    using ZodIssue_nested_ind; intros errs.
  - simpl. destruct (code =? "invalid_union"); simpl.
    + destruct (normalizeFormPath (join "." ipath) =? ""); simpl; auto.
      now rewrite bind_Normal_r.
    + now rewrite bind_Normal_r.
  - rewrite processIssues_flatMap. cbv zeta. simpl recorded.
    destruct (code =? "invalid_union") eqn:Hc; simpl.
    + assert (Hb : forall errs,
                 processIssues (flat_map (fun ue => ue) ues) errs
                 = pushMessages (flat_map (fun ue => flat_map recorded ue) ues) errs).
      { clear Hc errs.
        induction IH as [|ue ues Hue Hues IHues]; intros errs; simpl; [reflexivity|].
        rewrite processIssues_app, pushMessages_app.
        assert (Hue' : forall errs,
                   processIssues ue errs = pushMessages (flat_map recorded ue) errs).
        { clear IHues Hues. induction Hue as [|i ue Hi Hue IHue]; intros errs0; simpl;
            [reflexivity|].
          rewrite pushMessages_app, <- Hi. apply bind_ext. intros a. apply IHue. }
        rewrite Hue'. apply bind_ext. intros a. apply IHues. }
      rewrite Hb, pushMessages_app. apply bind_ext. intros a.
      destruct (normalizeFormPath (join "." ipath) =? ""); simpl; auto.
      now rewrite bind_Normal_r.
    + now rewrite bind_Normal_r.
Qed.

Lemma processIssues_recorded : forall issues errs,
    processIssues issues errs = pushMessages (recordedAll issues) errs.
Proof.
  induction issues as [|i issues IH]; intros errs; [reflexivity|].
  unfold recordedAll. simpl. rewrite pushMessages_app, <- processIssue_recorded.
  apply bind_ext. intros a. apply IH.
Qed.

(** [pushMessage] throws exactly when the path, not being an own property
    of the map, names an inherited member. *)
Lemma pushMessage_read : forall p m errs,
    pushMessage p m errs
    = match Obj.read p errs with
      | Obj.FromPrototype => Throw TypeError
      | _ => Normal (recordMessage p m errs)
      end.
Proof.
  intros p m errs. unfold pushMessage, recordMessage, Obj.read.
  destruct (Obj.get p errs) as [e|] eqn:E.
  - rewrite E. reflexivity.
  - destruct (Obj.inheritedName p) eqn:Hin.
    + rewrite E. reflexivity.
    + rewrite !get_set_same. reflexivity.
Qed.

Lemma pushMessages_plain : forall l errs,
    plainPaths l = true -> pushMessages l errs = Normal (pushAll l errs).
Proof.
  induction l as [|[p m] l IH]; intros errs H; [reflexivity|].
  simpl in H. apply andb_true_iff in H. destruct H as [Hp Hl].
  apply negb_true_iff in Hp. simpl.
  rewrite pushMessage_read. unfold Obj.read. rewrite Hp.
  destruct (Obj.get p errs); simpl; now apply IH.
Qed.

Lemma recordMessage_keys_in : forall p m errs k,
    In k (map fst (recordMessage p m errs)) -> k = p \/ In k (map fst errs).
Proof.
  intros p m errs k. unfold recordMessage.
  destruct (Obj.get p errs) as [e|] eqn:E.
  - rewrite E. rewrite keys_set_present; auto.
    destruct (in_dec string_dec p (map fst errs)) as [Hin|Hnin]; auto.
    apply get_None_notin in Hnin. congruence.
  - pose proof (proj1 (get_None_notin _ _) E) as Hnin.
    rewrite get_set_same. rewrite keys_set_present.
    + rewrite set_absent by assumption. rewrite map_app. intros H.
      apply in_app_or in H. destruct H as [H|[H|[]]]; auto.
    + rewrite set_absent by assumption. rewrite map_app. apply in_or_app.
      right. now left.
Qed.

(** Starting from a map without inherited names among its keys, a recorded
    path of such a name makes the whole run throw. *)
Lemma pushMessages_inherited : forall l errs,
    (forall k, In k (map fst errs) -> Obj.inheritedName k = false) ->
    plainPaths l = false -> pushMessages l errs = Throw TypeError.
Proof.
  induction l as [|[p m] l IH]; intros errs Hkeys H; [discriminate|].
  simpl in H. simpl. rewrite pushMessage_read. unfold Obj.read.
  destruct (Obj.inheritedName p) eqn:Hp.
  - destruct (Obj.get p errs) as [e|] eqn:E; [|reflexivity].
    assert (Hin : In p (map fst errs)).
    { destruct (in_dec string_dec p (map fst errs)) as [Hin|Hnin]; auto.
      apply get_None_notin in Hnin. congruence. }
    apply Hkeys in Hin. congruence.
  - simpl in H.
    assert (Hnext : pushMessages l (recordMessage p m errs) = Throw TypeError).
    { apply IH; auto. intros k Hk. apply recordMessage_keys_in in Hk.
      destruct Hk as [->|Hk]; auto. }
    destruct (Obj.get p errs); simpl; exact Hnext.
Qed.

Lemma processIssues_plain : forall issues errs,
    plainPaths (recordedAll issues) = true ->
    processIssues issues errs = Normal (pushAll (recordedAll issues) errs).
Proof.
  intros issues errs H. rewrite processIssues_recorded. now apply pushMessages_plain.
Qed.

Lemma recorded_unfold : forall issue,
    recorded issue
    = (recordedAll (if isUnion issue then branchIssues issue else [])
       ++ (if silent issue then [] else [(normalizedPath issue, issue_message issue)]))%list.
Proof.
  intros [code ipath message ue branches]. unfold silent, isUnion, normalizedPath, branchIssues.
  simpl. f_equal. destruct (code =? "invalid_union"); [|reflexivity].
  destruct ue as [ues|]; [|reflexivity].
  unfold recordedAll. induction ues as [|u ues IH]; simpl; [reflexivity|].
  now rewrite flat_map_app, IH.
Qed.

(** Without union issues, the recorded pairs are the issues themselves. *)
Lemma recordedAll_plain : forall issues,
    forallb (fun i => negb (isUnion i)) issues = true ->
    recordedAll issues = map (fun i => (normalizedPath i, issue_message i)) issues.
Proof.
  induction issues as [|i issues IH]; simpl; [reflexivity|].
  rewrite andb_true_iff, negb_true_iff. intros [Hi H].
  unfold recordedAll in *. simpl. rewrite (IH H), recorded_unfold.
  unfold silent. rewrite Hi. reflexivity.
Qed.

(** *** The order in which an object's properties are read back *)

Lemma insertIndexed_perm : forall {A} (e : N * (string * A)) l,
    Permutation (Obj.insertIndexed e l) (e :: l).
Proof.
  intros A e l. induction l as [|e' l IH]; simpl; auto.
  destruct (fst e <=? fst e')%N; auto.
  rewrite IH. apply perm_swap.
Qed.

Lemma sortIndexed_perm : forall {A} (l : list (N * (string * A))),
    Permutation (Obj.sortIndexed l) l.
Proof.
  intros A l. induction l as [|e l IH]; simpl; auto.
  rewrite insertIndexed_perm. now constructor.
Qed.

Lemma insertIndexed_sorted : forall {A} (e : N * (string * A)) l,
    StronglySorted (fun a b => (fst a <= fst b)%N) l ->
    StronglySorted (fun a b => (fst a <= fst b)%N) (Obj.insertIndexed e l).
Proof.
  intros A e l H. induction H as [|e' l Hs IH Hall]; simpl.
  - repeat constructor.
  - destruct (fst e <=? fst e')%N eqn:E.
    + apply N.leb_le in E. constructor; [now constructor|].
      constructor; auto.
      eapply Forall_impl; [|apply Hall]. simpl. intros a Ha. lia.
    + apply N.leb_gt in E. constructor; auto.
      apply (Permutation_Forall (Permutation_sym (insertIndexed_perm e l))).
      constructor; auto. lia.
Qed.

Lemma sortIndexed_sorted : forall {A} (l : list (N * (string * A))),
    StronglySorted (fun a b => (fst a <= fst b)%N) (Obj.sortIndexed l).
Proof.
  intros A l. induction l as [|e l IH]; simpl; [constructor|].
  now apply insertIndexed_sorted.
Qed.

Lemma indexed_keys : forall {A} (o : list (string * A)),
    map (fun x => fst (snd x)) (Obj.indexed o) = filter Obj.isArrayIndex (map fst o).
Proof.
  intros A o. unfold Obj.indexed, Obj.isArrayIndex.
  induction o as [|[k v] o IH]; simpl; auto.
  destruct (Obj.arrayIndex k); simpl; now rewrite IH.
Qed.

Lemma indexed_entries : forall {A} (o : list (string * A)),
    map snd (Obj.indexed o) = filter (fun e => Obj.isArrayIndex (fst e)) o.
Proof.
  intros A o. unfold Obj.indexed, Obj.isArrayIndex.
  induction o as [|[k v] o IH]; simpl; auto.
  destruct (Obj.arrayIndex k); simpl; now rewrite IH.
Qed.

Lemma indexed_index : forall {A} (o : list (string * A)),
    Forall (fun x => Obj.arrayIndex (fst (snd x)) = Some (fst x)) (Obj.indexed o).
Proof.
  intros A o. unfold Obj.indexed.
  induction o as [|[k v] o IH]; simpl; auto.
  destruct (Obj.arrayIndex k) eqn:E; simpl; auto.
Qed.

Lemma named_keys : forall {A} (o : list (string * A)),
    map fst (Obj.named o) = filter (fun k => negb (Obj.isArrayIndex k)) (map fst o).
Proof.
  intros A o. unfold Obj.named.
  induction o as [|[k v] o IH]; simpl; auto.
  destruct (Obj.isArrayIndex k); simpl; now rewrite IH.
Qed.

Lemma ownEntries_perm : forall {A} (o : list (string * A)),
    Permutation (Obj.ownEntries o) o.
Proof.
  intros A o. unfold Obj.ownEntries.
  rewrite (Permutation_map snd (sortIndexed_perm (Obj.indexed o))).
  rewrite indexed_entries. unfold Obj.named.
  induction o as [|[k v] o IH]; simpl; auto.
  destruct (Obj.isArrayIndex k); simpl.
  - now constructor.
  - rewrite <- Permutation_middle. now constructor.
Qed.

(** Array-index keys first, ascending; then the other keys in creation
    order. *)
Lemma ownEntries_keys : forall {A} (o : list (string * A)),
    exists idx,
      map fst (Obj.ownEntries o)
      = (idx ++ filter (fun k => negb (Obj.isArrayIndex k)) (map fst o))%list
      /\ Permutation idx (filter Obj.isArrayIndex (map fst o))
      /\ StronglySorted indexLe idx.
Proof.
  intros A o.
  exists (map (fun x => fst (snd x)) (Obj.sortIndexed (Obj.indexed o))).
  split; [|split].
  - unfold Obj.ownEntries. now rewrite map_app, map_map, named_keys.
  - rewrite <- indexed_keys. apply Permutation_map, sortIndexed_perm.
  - assert (Hall : Forall (fun x : N * (string * A) =>
                             Obj.arrayIndex (fst (snd x)) = Some (fst x))
                          (Obj.sortIndexed (Obj.indexed o))).
    { apply (Permutation_Forall (Permutation_sym (sortIndexed_perm _))).
      apply indexed_index. }
    pose proof (sortIndexed_sorted (Obj.indexed o)) as Hs.
    induction Hs as [|x l Hs IH Hx]; simpl; constructor.
    + apply IH. now inversion Hall.
    + inversion Hall as [|? ? Hx0 Hl]; subst.
      rewrite Forall_map. rewrite Forall_forall in *.
      intros y Hy. unfold indexLe. rewrite Hx0, (Hl y Hy). now apply Hx.
Qed.


Lemma filter_all : forall {A} (f : A -> bool) l,
    (forall x, In x l -> f x = true) -> filter f l = l.
Proof.
  intros A f l. induction l as [|x l IH]; simpl; auto.
  intros H. rewrite (H x) by auto. f_equal. apply IH. auto.
Qed.

Lemma entries_paths : forall l ks (es : list (string * TypedSchemaError)),
    Permutation es (map (entryOf l) ks) ->
    map path (map snd es) = map fst es.
Proof.
  intros l ks es Hp. rewrite map_map. apply map_ext_in.
  intros [k e] Hin. apply (Permutation_in _ Hp) in Hin.
  apply in_map_iff in Hin. destruct Hin as [q [Hq _]].
  unfold entryOf in Hq. inversion Hq. reflexivity.
Qed.

(** What [parse] returns for a list of issues. *)
Lemma parse_errors_closed : forall issues,
    let rec := recordedAll issues in
    let es := Object_values (pushAll rec []) in
    Permutation es (map (fun p => snd (entryOf rec p)) (firstSeen (map fst rec)))
    /\ exists idx,
        map path es
        = (idx ++ filter (fun k => negb (Obj.isArrayIndex k)) (firstSeen (map fst rec)))%list
        /\ Permutation idx (filter Obj.isArrayIndex (firstSeen (map fst rec)))
        /\ StronglySorted indexLe idx.
Proof.
  intros issues rec es. subst es. unfold Object_values.
  rewrite pushAll_empty.
  set (ks := firstSeen (map fst rec)).
  split.
  - replace (map (fun p => snd (entryOf rec p)) ks)
      with (map snd (map (entryOf rec) ks)) by apply map_map.
    apply Permutation_map, ownEntries_perm.
  - rewrite (entries_paths rec ks) by apply ownEntries_perm.
    destruct (ownEntries_keys (map (entryOf rec) ks)) as [idx [H1 [H2 H3]]].
    rewrite keys_entries in H1, H2. now exists idx.
Qed.

(** [parse] on a failed validation: the entries, when no recorded path
    names an inherited member; a [TypeError] otherwise. *)
Lemma parse_failure : forall v issues,
    safeParseAsync zodSchema v opts = Normal (SafeParseError issues) ->
    plainPaths (recordedAll issues) = true ->
    parse v = Normal {| value := None;
                        output_errors := Object_values (pushAll (recordedAll issues) []) |}.
Proof.
  intros v issues Hfail Hown. unfold parse.
  now rewrite Hfail, (processIssues_plain issues [] Hown).
Qed.

Lemma parse_inherited : forall v issues,
    safeParseAsync zodSchema v opts = Normal (SafeParseError issues) ->
    plainPaths (recordedAll issues) = false ->
    parse v = Throw TypeError.
Proof.
  intros v issues Hfail Hinh. unfold parse.
  rewrite Hfail, processIssues_recorded, pushMessages_inherited; auto.
  intros k [].
Qed.

(** *** Claims *)


(** C7.  When the schema's asynchronous safe validation accepts the
    input, [parse] returns the validated data as the value, with an empty
    error list. *)
Theorem parse_success : forall v data,
    safeParseAsync zodSchema v opts = Normal (SafeParseSuccess data) ->
    parse v = Normal {| value := Some data; output_errors := [] |}.
Proof.
  intros v data H. unfold parse. now rewrite H.
Qed.

Lemma reportedWithin_recorded : forall u b,
    reportedWithin u b -> silent b = false ->
    In (normalizedPath b, issue_message b) (recorded u).
Proof.
  intros u b H Hs. induction H as [u|u c b Hu Hc Hw IH].
  - rewrite recorded_unfold, Hs. apply in_or_app. right. now left.
  - rewrite recorded_unfold, Hu. apply in_or_app. left.
    unfold recordedAll. apply in_flat_map. exists c. auto.
Qed.

Lemma messagesAt_In : forall p m l, In (p, m) l -> In m (messagesAt p l).
Proof.
  intros p m l H. unfold messagesAt. apply in_map_iff.
  exists (p, m). split; auto. apply filter_In. split; auto.
  simpl. apply String.eqb_refl.
Qed.

Lemma processIssues_single : forall u errs,
    processIssues [u] errs
    = (errs1 <- (if isUnion u then processIssues (branchIssues u) errs
                 else Normal errs) ;;
       if silent u then Normal errs1
       else pushMessage (normalizedPath u) (issue_message u) errs1).
Proof.
  intros [code ipath message ue branches] errs.
  change (processIssues [mkZodIssue code ipath message ue branches] errs)
    with (errs1 <- processIssue (mkZodIssue code ipath message ue branches) errs ;;
          Normal errs1).
  rewrite bind_Normal_r, processIssues_flatMap.
  unfold silent, isUnion, normalizedPath, branchIssues. simpl.
  destruct ue; reflexivity.
Qed.

(** C2 (as amended).  When a validation failure contains a union issue
    that carries the issues of its branches under [unionErrors] and no
    recorded path names a member inherited from [Object.prototype], [parse]
    reports the issues of the branches, recursively: every issue found at
    any depth in the branches has its message in the entry of its
    normalized path, unless that issue is itself a union issue with an
    empty normalized path.  The union issue's own message is left out only
    when its normalized path is empty, in which case the failure is
    processed exactly as if the union issue were replaced by its flattened
    branch issues; with a non-empty path its message is reported under
    that path as well. *)
Theorem parse_union_branches : forall v issues u,
    safeParseAsync zodSchema v opts = Normal (SafeParseError issues) ->
    plainPaths (recordedAll issues) = true ->
    In u issues -> isUnion u = true ->
    exists es,
      parse v = Normal {| value := None; output_errors := es |}
      /\ (forall b, reportedWithin u b -> silent b = false ->
            exists e, In e es /\ path e = normalizedPath b
                      /\ In (issue_message b) (errors e))
      /\ (normalizedPath u = "" ->
          forall pre post, issues = (pre ++ u :: post)%list ->
            processIssues issues []
            = processIssues (pre ++ branchIssues u ++ post) [])
      /\ (normalizedPath u <> "" ->
          exists e, In e es /\ path e = normalizedPath u
                    /\ In (issue_message u) (errors e)).
Proof.
  intros v issues u Hfail Hown Hin Hu.
  exists (Object_values (pushAll (recordedAll issues) [])).
  split; [now apply parse_failure|].
  assert (Hrep : forall b, reportedWithin u b -> silent b = false ->
            exists e, In e (Object_values (pushAll (recordedAll issues) []))
                      /\ path e = normalizedPath b
                      /\ In (issue_message b) (errors e)).
  { intros b Hb Hs.
    destruct (parse_errors_closed issues) as [Hperm _]. cbv zeta in Hperm.
    assert (Hrec : In (normalizedPath b, issue_message b) (recordedAll issues)).
    { unfold recordedAll. apply in_flat_map. exists u. split; auto.
      now apply reportedWithin_recorded. }
    exists (snd (entryOf (recordedAll issues) (normalizedPath b))).
    split; [|split].
    - apply (Permutation_in _ (Permutation_sym Hperm)).
      apply in_map_iff. exists (normalizedPath b). split; auto.
      apply (proj2 (firstSeen_In _ _)).
      change (normalizedPath b) with (fst (normalizedPath b, issue_message b)).
      now apply in_map.
    - reflexivity.
    - simpl. now apply messagesAt_In. }
  split; [exact Hrep|]. split.
  - intros Hp pre post ->.
    rewrite !processIssues_app. apply bind_ext. intros a.
    change (u :: post) with ([u] ++ post)%list.
    rewrite !processIssues_app. f_equal.
    rewrite processIssues_single. unfold silent. rewrite Hu, Hp. simpl.
    now rewrite bind_Normal_r.
  - intros Hp. apply Hrep; [constructor|].
    unfold silent. rewrite Hu. simpl.
    now apply String.eqb_neq.
Qed.

(** *** The path walk *)

Lemma filterBoolean_nonempty : forall l, Forall (fun p => p <> "") (filterBoolean l).
Proof.
  induction l as [|[[|c s]|] l IH]; simpl; auto.
  constructor; auto. discriminate.
Qed.

Lemma skipn_nth_error : forall {A} (l : list A) i x,
    nth_error l i = Some x -> skipn i l = x :: skipn (S i) l.
Proof.
  intros A l. induction l as [|y l IH]; intros [|i] x; simpl; try discriminate.
  - now intros [= ->].
  - intros H. now rewrite (IH i x H).
Qed.

Lemma walk_resolve : forall paths,
    Forall (fun p => p <> "") paths ->
    forall n i cur,
      i + n = List.length paths ->
      walk (S n) i paths cur = resolve (skipn i paths) cur.
Proof.
  intros paths Hne. induction n as [|n IH]; intros i cur Hlen.
  - assert (Hi : nth_error paths i = None) by (apply nth_error_None; lia).
    simpl. rewrite Hi. rewrite skipn_all2 by lia. reflexivity.
  - destruct (nth_error paths i) as [p|] eqn:Hp.
    2:{ apply nth_error_None in Hp. lia. }
    assert (Hpne : p <> "").
    { rewrite Forall_forall in Hne. apply Hne. eapply nth_error_In; eauto. }
    rewrite (skipn_nth_error _ _ _ Hp).
    change (walk (S (S n)) i paths cur)
      with (match nth_error paths i, cur with
            | Some (String c s), Some cur' =>
                let p := String c s in
                if isObjectSchema cur' then
                  walk (S n) (S i) paths (readShape p (shape cur'))
                else if isIndex p && isArraySchema cur' then
                  walk (S n) (S i) paths (def_type cur')
                else walk (S n) (S i) paths cur
            | _, _ => cur
            end).
    rewrite Hp. destruct p as [|c s]; [congruence|].
    destruct cur as [cur'|]; [|reflexivity].
    cbv zeta. simpl resolve.
    rewrite !IH by lia. reflexivity.
Qed.

Lemma resolve_app : forall pre rest cur,
    resolve (pre ++ rest) cur = resolve rest (resolve pre cur).
Proof.
  induction pre as [|p pre IH]; intros rest cur; simpl.
  - now destruct cur.
  - destruct cur as [cur'|].
    + destruct (isObjectSchema cur'); [apply IH|].
      destruct (isIndex p && isArraySchema cur'); apply IH.
    + now destruct rest.
Qed.

Lemma walk_all : forall paths cur,
    Forall (fun p => p <> "") paths ->
    walk (S (List.length paths)) 0 paths cur = resolve paths cur.
Proof.
  intros paths cur H. now rewrite (walk_resolve paths H).
Qed.

(** A schema the routine takes for array-shaped is not object-shaped for
    it. *)
Lemma isArraySchema_not_object : forall schema,
    isArraySchema schema = true -> isObjectSchema schema = false.
Proof.
  intros schema. unfold isArraySchema, isObjectSchema.
  destruct (getDefType schema) as [name|]; [|reflexivity].
  intros H. apply String.eqb_eq in H. now subst name.
Qed.

(** C3 (as amended).  In the path walk on a root the routine recognises
    as object-shaped, when the current segment is a numeric index and the
    current schema is array-shaped, the walk descends into the array's
    declared element type and goes on with the remaining segments: the
    result is what the loop computes on those segments starting from the
    element type, which is the element type itself when no segment
    remains. *)
Theorem array_index_descent_continues : forall p root pre idx rest cur,
    isObjectSchema root = true ->
    isNotNestedPath p = false ->
    filterBoolean (split p) = (pre ++ idx :: rest)%list ->
    walk (S (List.length pre)) 0 pre (Some root) = Some cur ->
    isArraySchema cur = true ->
    isIndex idx = true ->
    getSchemaForPath p root = walk (S (List.length rest)) 0 rest (def_type cur)
    /\ (rest = [] -> getSchemaForPath p root = def_type cur).
Proof.
  intros p root pre idx rest cur Hroot Hnested Hsplit Hpre Harr Hidx.
  pose proof (filterBoolean_nonempty (split p)) as Hne.
  rewrite Hsplit in Hne.
  assert (Hne_pre : Forall (fun q => q <> "") pre).
  { apply Forall_app in Hne. prop. }
  assert (Hne_rest : Forall (fun q => q <> "") rest).
  { apply Forall_app in Hne. destruct Hne as [_ H]. now inversion H. }
  rewrite walk_all in Hpre by assumption.
  assert (Hres : getSchemaForPath p root
                 = walk (S (List.length rest)) 0 rest (def_type cur)).
  { unfold getSchemaForPath. rewrite Hroot, Hnested. simpl negb. cbv iota zeta.
    rewrite Hsplit. rewrite !walk_all by assumption.
    rewrite resolve_app, Hpre. simpl.
    now rewrite (isArraySchema_not_object cur Harr), Harr, Hidx. }
  split; [exact Hres|].
  intros ->. rewrite Hres. now destruct (def_type cur).
Qed.

(** *** Defaults *)

Lemma sortIndexed_map : forall {A B} (h : string * A -> string * B)
                               (l : list (N * (string * A))),
    Obj.sortIndexed (map (fun x => (fst x, h (snd x))) l)
    = map (fun x => (fst x, h (snd x))) (Obj.sortIndexed l).
Proof.
  intros A B h l. induction l as [|e l IH]; simpl; auto.
  rewrite IH. generalize (Obj.sortIndexed l) as s. clear.
  induction s as [|e' s IHs]; simpl; auto.
  destruct (fst e <=? fst e')%N; simpl; auto.
  now rewrite IHs.
Qed.

(** Reading the properties back commutes with a change of the values. *)
Lemma ownEntries_map : forall {A B} (g : A -> B) (o : list (string * A)),
    Obj.ownEntries (map (fun kv => (fst kv, g (snd kv))) o)
    = map (fun kv => (fst kv, g (snd kv))) (Obj.ownEntries o).
Proof.
  intros A B g o. unfold Obj.ownEntries. rewrite map_app. f_equal.
  - assert (Hi : Obj.indexed (map (fun kv => (fst kv, g (snd kv))) o)
                 = map (fun x => (fst x, (fst (snd x), g (snd (snd x)))))
                     (Obj.indexed o)).
    { unfold Obj.indexed. induction o as [|[k v] o IH]; simpl; auto.
      destruct (Obj.arrayIndex k); simpl; now rewrite IH. }
    rewrite Hi.
    rewrite (sortIndexed_map (fun kv => (fst kv, g (snd kv)))).
    now rewrite !map_map.
  - unfold Obj.named. induction o as [|[k v] o IH]; simpl; auto.
    destruct (Obj.isArrayIndex k); simpl; now rewrite IH.
Qed.

Lemma fromEntries_fresh : forall {A} (es acc : list (string * A)),
    NoDup (map fst (acc ++ es)) ->
    fold_left (fun o kv => Obj.set (fst kv) (snd kv) o) es acc = (acc ++ es)%list.
Proof.
  intros A es. induction es as [|[k v] es IH]; intros acc Hnd; simpl.
  - now rewrite app_nil_r.
  - assert (Hk : ~ In k (map fst acc)).
    { rewrite map_app in Hnd. simpl in Hnd.
      apply NoDup_remove_2 in Hnd. intros H. apply Hnd.
      apply in_or_app. now left. }
    rewrite (set_absent k v acc Hk).
    rewrite IH; rewrite <- app_assoc; auto.
Qed.

Lemma fromEntries_NoDup : forall {A} (es : list (string * A)),
    NoDup (map fst es) -> Object_fromEntries es = es.
Proof.
  intros A es H. unfold Object_fromEntries. now rewrite fromEntries_fresh.
Qed.

Lemma get_perm : forall {A} (o o' : list (string * A)) k,
    NoDup (map fst o) -> Permutation o' o -> Obj.get k o' = Obj.get k o.
Proof.
  intros A o o' k Hnd Hp.
  assert (Hnd' : NoDup (map fst o')).
  { apply (Permutation_NoDup (Permutation_map fst (Permutation_sym Hp)) Hnd). }
  destruct (Obj.get k o) as [v|] eqn:E.
  - apply In_get; auto. apply (Permutation_in _ (Permutation_sym Hp)).
    now apply get_In.
  - apply get_None_notin. apply get_None_notin in E. intros H. apply E.
    apply (Permutation_in _ (Permutation_map fst Hp) H).
Qed.

Lemma get_map : forall {A B} (g : A -> B) (o : list (string * A)) k,
    Obj.get k (map (fun kv => (fst kv, g (snd kv))) o)
    = option_map g (Obj.get k o).
Proof.
  intros A B g o k. induction o as [|[k' v] o IH]; simpl; auto.
  destruct (k' =? k); auto.
Qed.

Lemma keys_map : forall {A B} (g : A -> B) (o : list (string * A)),
    map fst (map (fun kv => (fst kv, g (snd kv))) o) = map fst o.
Proof.
  intros. rewrite map_map. reflexivity.
Qed.

(** [getDefaults] on an object schema, as the source writes it. *)
Lemma getDefaults_entries : forall sh,
    getDefaults (ZodObject sh)
    = (entries <-
         sequenceEntries
           (map (fun kv => (fst kv, fieldDefault (snd kv))) (Object_entries sh)) ;;
       Normal (JsObject (Object_fromEntries entries))).
Proof.
  intros sh. unfold Object_entries. rewrite <- ownEntries_map. reflexivity.
Qed.

Lemma getDefaults_not_object : forall schema,
    isZodObject schema = false -> getDefaults schema = Normal JsUndefined.
Proof.
  intros [sh|t|i d|i|k|n]; simpl; try discriminate; auto.
Qed.

(** When every call returns, [sequenceEntries] returns the values under
    their keys. *)
Lemma sequenceEntries_returns : forall {A} (l : list (string * Completion A)),
    (forall kc, In kc l -> returns (snd kc) = true) ->
    exists es,
      sequenceEntries l = Normal es
      /\ map (fun e => (fst e, Normal (snd e))) es = l.
Proof.
  intros A l. induction l as [|[k c] l IH]; intros H.
  - exists []. auto.
  - destruct IH as [es [Hes Hmap]]; [intros kc Hkc; apply H; now right|].
    assert (Hc : returns c = true) by (apply (H (k, c)); now left).
    destruct c as [v|e]; [|discriminate].
    exists ((k, v) :: es). simpl. rewrite Hes. simpl. now rewrite Hmap.
Qed.

Lemma sequenceEntries_throws : forall {A} (l : list (string * Completion A)) kc,
    In kc l -> returns (snd kc) = false -> returns (sequenceEntries l) = false.
Proof.
  intros A l kc. induction l as [|[k c] l IH]; intros Hin Hkc; [contradiction|].
  simpl. destruct c as [v|e]; [|reflexivity]. simpl.
  destruct Hin as [Heq|Hin]; [subst kc; discriminate|].
  specialize (IH Hin Hkc). destruct (sequenceEntries l); [discriminate|reflexivity].
Qed.

(** *** [describe] *)

(** C8 (as amended).  Called without a path, [describe] reports that the
    schema exists, and that it is required exactly when it is not optional
    at its top level, whenever the schema answers the query for its
    optionality; when that query raises, [describe] reports
    [{ required: false, exists: false }]. *)
Theorem describe_no_path : forall p,
    noPath p = true ->
    (forall b, isOptional zodSchema = Normal b ->
       describe p = (Normal {| required := negb b; exists_ := true |}, []))
    /\ (forall e, isOptional zodSchema = Throw e ->
          fst (describe p) = Normal notFound).
Proof.
  intros p Hp. unfold describe, describeTry.
  destruct p as [[|c s]|]; try discriminate;
    split; intros x Hx; rewrite Hx; reflexivity.
Qed.

(** C6.  [describe] never raises: for every path argument it returns a
    description.  That description is the not-found report
    [{ required: false, exists: false }] when the path resolves to no
    schema, and also when the schema library raises while the schema is
    asked for its optionality. *)
Theorem describe_never_raises : forall p,
    exists d warnings,
      describe p = (Normal d, warnings)
      /\ (forall s, p = Some s -> noPath p = false ->
            getSchemaForPath s zodSchema = None -> d = notFound)
      /\ (forall e, noPath p = true ->
            isOptional zodSchema = Throw e -> d = notFound)
      /\ (forall s t e, p = Some s -> noPath p = false ->
            getSchemaForPath s zodSchema = Some t ->
            isOptional t = Throw e -> d = notFound)
      /\ (forall e, describeTry p = Throw e -> d = notFound).
Proof.
  intros p. unfold describe.
  destruct (describeTry p) as [d|e] eqn:Htry.
  - exists d, []. split; [reflexivity|].
    unfold describeTry in Htry.
    split; [|split; [|split]].
    + intros s -> Hno Hnone. destruct s as [|c s]; [discriminate|].
      rewrite Hnone in Htry. now inversion Htry.
    + intros e Hno He. destruct p as [[|c s]|]; try discriminate;
        rewrite He in Htry; discriminate.
    + intros s t e -> Hno Hsome He. destruct s as [|c s]; [discriminate|].
      rewrite Hsome, He in Htry. discriminate.
    + discriminate.
  - eexists. eexists. split; [reflexivity|]. repeat split; reflexivity.
Qed.



(** *** Further properties of [processIssues] *)

Lemma get_set_other : forall {A} k k' (v : A) o,
    k <> k' -> Obj.get k' (Obj.set k v o) = Obj.get k' o.
Proof.
  intros A k k' v o Hne. induction o as [|[k0 v0] o IH]; simpl.
  - destruct (k =? k') eqn:E; auto. apply String.eqb_eq in E. contradiction.
  - destruct (k0 =? k) eqn:E; simpl.
    + apply String.eqb_eq in E. subst k0.
      destruct (k =? k') eqn:E'; auto.
      apply String.eqb_eq in E'. contradiction.
    + destruct (k0 =? k'); auto.
Qed.

Lemma get_Some_in : forall {A} k (v : A) o, Obj.get k o = Some v -> In k (map fst o).
Proof.
  intros A k v o H. destruct (in_dec string_dec k (map fst o)) as [Hin|Hnin]; auto.
  apply get_None_notin in Hnin. congruence.
Qed.

Lemma recordMessage_same : forall p m errs,
    Obj.get p (recordMessage p m errs)
    = Some (match Obj.get p errs with
            | Some e => {| path := path e; errors := errors e ++ [m] |}
            | None => {| path := p; errors := [m] |}
            end).
Proof.
  intros p m errs. unfold recordMessage.
  destruct (Obj.get p errs) as [e|] eqn:E.
  - rewrite E. apply get_set_same.
  - rewrite get_set_same. apply get_set_same.
Qed.

Lemma recordMessage_other : forall p m errs k,
    p <> k -> Obj.get k (recordMessage p m errs) = Obj.get k errs.
Proof.
  intros p m errs k Hne. unfold recordMessage.
  destruct (Obj.get p errs) as [e|] eqn:E.
  - rewrite E. now apply get_set_other.
  - rewrite get_set_same. rewrite !get_set_other by assumption. reflexivity.
Qed.

Lemma recordMessage_keys : forall p m errs,
    map fst (recordMessage p m errs)
    = (map fst errs ++ (if mem p (map fst errs) then [] else [p]))%list.
Proof.
  intros p m errs. unfold recordMessage.
  destruct (Obj.get p errs) as [e|] eqn:E.
  - rewrite E. pose proof (get_Some_in _ _ _ E) as Hin.
    rewrite keys_set_present by assumption.
    rewrite (proj2 (mem_In _ _) Hin). now rewrite app_nil_r.
  - pose proof (proj1 (get_None_notin _ _) E) as Hnin.
    rewrite get_set_same.
    destruct (mem p (map fst errs)) eqn:Hm.
    { apply mem_In in Hm. contradiction. }
    rewrite keys_set_present.
    + rewrite set_absent by assumption. now rewrite map_app.
    + rewrite set_absent by assumption. rewrite map_app. apply in_or_app.
      right. now left.
Qed.

Lemma messagesAt_cons : forall k p m l,
    messagesAt k ((p, m) :: l)
    = if p =? k then m :: messagesAt k l else messagesAt k l.
Proof.
  intros. unfold messagesAt. simpl. now destruct (p =? k).
Qed.

Lemma pushAll_lookup : forall l errs k,
    Obj.get k (pushAll l errs)
    = match Obj.get k errs with
      | Some e => Some {| path := path e; errors := errors e ++ messagesAt k l |}
      | None =>
          match messagesAt k l with
          | [] => None
          | ms => Some {| path := k; errors := ms |}
          end
      end.
Proof.
  induction l as [|[p m] l IH]; intros errs k.
  - simpl. destruct (Obj.get k errs) as [[pe ee]|]; auto.
    unfold messagesAt. simpl. now rewrite app_nil_r.
  - change (pushAll ((p, m) :: l) errs) with (pushAll l (recordMessage p m errs)).
    rewrite IH, messagesAt_cons.
    destruct (p =? k) eqn:E.
    + apply String.eqb_eq in E. subst k. rewrite recordMessage_same.
      destruct (Obj.get p errs) as [e|]; simpl.
      * now rewrite <- app_assoc.
      * reflexivity.
    + apply String.eqb_neq in E. now rewrite recordMessage_other.
Qed.

Lemma filter_filter_weaker : forall {A} (f g : A -> bool) l,
    (forall x, f x = true -> g x = true) ->
    filter f (filter g l) = filter f l.
Proof.
  intros A f g l H. induction l as [|x l IH]; simpl; auto.
  destruct (g x) eqn:Eg; simpl.
  - now rewrite IH.
  - destruct (f x) eqn:Ef; auto. apply H in Ef. congruence.
Qed.

Lemma filter_andb : forall {A} (f g : A -> bool) l,
    filter f (filter g l) = filter (fun x => g x && f x) l.
Proof.
  intros A f g l. induction l as [|x l IH]; simpl; auto.
  destruct (g x); simpl; [destruct (f x)|]; now rewrite IH.
Qed.

Lemma mem_app : forall x l1 l2, mem x (l1 ++ l2) = mem x l1 || mem x l2.
Proof.
  intros. unfold mem. apply existsb_app.
Qed.

Lemma pushAll_keys : forall l errs,
    map fst (pushAll l errs)
    = (map fst errs
       ++ filter (fun p => negb (mem p (map fst errs))) (firstSeen (map fst l)))%list.
Proof.
  induction l as [|[p m] l IH]; intros errs.
  - simpl. now rewrite app_nil_r.
  - change (pushAll ((p, m) :: l) errs) with (pushAll l (recordMessage p m errs)).
    rewrite IH, recordMessage_keys. simpl map. simpl firstSeen. simpl filter.
    destruct (mem p (map fst errs)) eqn:Hm; simpl negb; cbv iota.
    + rewrite app_nil_r. f_equal. symmetry. apply filter_filter_weaker.
      intros x Hx. apply negb_true_iff. apply negb_true_iff in Hx.
      destruct (x =? p) eqn:E; auto. apply String.eqb_eq in E. congruence.
    + rewrite <- app_assoc. simpl. f_equal. f_equal.
      rewrite filter_andb. apply filter_ext. intros x.
      rewrite mem_app, negb_orb. unfold mem at 2. simpl.
      rewrite orb_false_r. apply andb_comm.
Qed.

(** X1.  Looking a path up after [processIssues] has run on an existing
    error map, when no recorded path names a member inherited from
    [Object.prototype]: an entry that was there keeps its [path] and gets
    the messages recorded at that path appended, in order; a path without
    an entry gets one exactly when a message is recorded at it; entries of
    paths at which nothing is recorded are left as they were. *)
Theorem processIssues_lookup : forall issues errs,
    plainPaths (recordedAll issues) = true ->
    exists errs1,
      processIssues issues errs = Normal errs1
      /\ forall k,
          Obj.get k errs1
          = match Obj.get k errs with
            | Some e =>
                Some {| path := path e;
                        errors := errors e ++ messagesAt k (recordedAll issues) |}
            | None =>
                match messagesAt k (recordedAll issues) with
                | [] => None
                | ms => Some {| path := k; errors := ms |}
                end
            end.
Proof.
  intros issues errs Hown. exists (pushAll (recordedAll issues) errs).
  split; [now apply processIssues_plain|]. intros k. apply pushAll_lookup.
Qed.

(** X2.  The order in which the error map is enumerated after
    [processIssues] has run on it, when no recorded path names a member
    inherited from [Object.prototype]: the keys that are array indices
    first, ascending; then the other keys that were already there, in their
    order; then the other normalized paths that are new, each once, in the
    order in which they were first recorded. *)
Theorem processIssues_keys : forall issues errs,
    plainPaths (recordedAll issues) = true ->
    exists errs1 idx,
      processIssues issues errs = Normal errs1
      /\ let added :=
           filter (fun p => negb (mem p (map fst errs)))
                  (firstSeen (map fst (recordedAll issues))) in
         map fst (Object_entries errs1)
         = (idx ++ filter (fun k => negb (Obj.isArrayIndex k)) (map fst errs)
                ++ filter (fun k => negb (Obj.isArrayIndex k)) added)%list
         /\ Permutation idx (filter Obj.isArrayIndex (map fst errs ++ added))
         /\ StronglySorted indexLe idx.
Proof.
  intros issues errs Hown.
  destruct (ownEntries_keys (pushAll (recordedAll issues) errs)) as [idx [H1 [H2 H3]]].
  exists (pushAll (recordedAll issues) errs), idx.
  split; [now apply processIssues_plain|]. cbv zeta.
  rewrite pushAll_keys in H1, H2. rewrite filter_app in H1.
  unfold Object_entries. auto.
Qed.

Lemma set_In : forall {A} k (v : A) o x,
    In x (Obj.set k v o) -> x = (k, v) \/ In x o.
Proof.
  intros A k v o x. induction o as [|[k' v'] o IH]; simpl.
  - intros [H|[]]; auto.
  - destruct (k' =? k) eqn:E.
    + apply String.eqb_eq in E. subst k'. intros [H|H]; auto.
    + intros [H|H]; auto. destruct (IH H); auto.
Qed.

Lemma recordMessage_paths : forall p m errs,
    (forall k e, In (k, e) errs -> path e = k) ->
    forall k e, In (k, e) (recordMessage p m errs) -> path e = k.
Proof.
  intros p m errs H k e. unfold recordMessage.
  destruct (Obj.get p errs) as [e0|] eqn:E.
  - rewrite E. intros Hin. apply set_In in Hin. destruct Hin as [Heq|Hin]; auto.
    inversion Heq; subst. simpl. apply H. now apply get_In.
  - rewrite get_set_same. intros Hin. apply set_In in Hin.
    destruct Hin as [Heq|Hin]; [now inversion Heq|].
    apply set_In in Hin. destruct Hin as [Heq|Hin]; auto. now inversion Heq.
Qed.

(** X3.  [processIssues] keeps every entry under its own path: if every
    entry of the error map it is given is stored under the key that is its
    [path], and no recorded path names a member inherited from
    [Object.prototype], the same holds of the map it returns, for any list
    of issues. *)
Theorem processIssues_well_formed : forall issues errs,
    plainPaths (recordedAll issues) = true ->
    (forall k e, In (k, e) errs -> path e = k) ->
    exists errs1,
      processIssues issues errs = Normal errs1
      /\ forall k e, In (k, e) errs1 -> path e = k.
Proof.
  intros issues errs Hown Hpath. exists (pushAll (recordedAll issues) errs).
  split; [now apply processIssues_plain|].
  clear Hown. revert errs Hpath. unfold pushAll.
  induction (recordedAll issues) as [|[p m] l IH]; intros errs Hpath; simpl; auto.
  apply IH. now apply recordMessage_paths.
Qed.

(** X22.  The branches of a union issue are read from its property
    [unionErrors] and from nowhere else: a union issue without that
    property is processed as an issue without branches, whatever its
    property [errors] holds.  With an empty normalized path it leaves the
    error map as it was, otherwise only its own message is recorded under
    its path. *)
Theorem union_without_unionErrors : forall ipath message branches errs,
    processIssues [mkZodIssue "invalid_union" ipath message None branches] errs
    = (if normalizeFormPath (join "." ipath) =? "" then Normal errs
       else pushMessage (normalizeFormPath (join "." ipath)) message errs).
Proof.
  intros ipath message branches errs. rewrite processIssues_single.
  unfold silent, isUnion, normalizedPath, branchIssues. simpl.
  now destruct (normalizeFormPath (join "." ipath) =? "").
Qed.

(** *** Counting what [parse] reports *)

Lemma messagesAt_other_head : forall q p m l,
    p <> q -> messagesAt q ((p, m) :: l) = messagesAt q l.
Proof.
  intros q p m l H. rewrite messagesAt_cons.
  destruct (p =? q) eqn:E; auto. apply String.eqb_eq in E. contradiction.
Qed.

Lemma flat_map_split : forall (g : string -> list string) p ks,
    NoDup ks ->
    Permutation (flat_map g ks)
      ((if mem p ks then g p else [])
       ++ flat_map g (filter (fun y => negb (y =? p)) ks)).
Proof.
  intros g p ks Hnd. induction Hnd as [|x ks Hx Hnd IH]; simpl; auto.
  unfold mem in *. simpl. destruct (x =? p) eqn:E; simpl.
  - apply String.eqb_eq in E. subst x. rewrite String.eqb_refl. simpl.
    assert (Hm : existsb (String.eqb p) ks = false).
    { destruct (existsb (String.eqb p) ks) eqn:Hm; auto.
      apply (proj1 (mem_In p ks)) in Hm. contradiction. }
    rewrite Hm in IH. simpl in IH. now apply Permutation_app_head.
  - rewrite String.eqb_sym, E. simpl.
    rewrite (Permutation_app_head (g x) IH).
    rewrite !app_assoc. apply Permutation_app_tail. apply Permutation_app_comm.
Qed.

Lemma flat_map_ext_In : forall {A B} (f g : A -> list B) l,
    (forall x, In x l -> f x = g x) -> flat_map f l = flat_map g l.
Proof.
  intros A B f g l H. induction l as [|x l IH]; simpl; auto.
  rewrite (H x) by (now left). f_equal. apply IH. intros y Hy. apply H. now right.
Qed.

(** Grouping by path neither loses nor repeats a message. *)
Lemma grouped_messages : forall l,
    Permutation (flat_map (fun p => messagesAt p l) (firstSeen (map fst l)))
                (map snd l).
Proof.
  induction l as [|[p m] l IH]; simpl; auto.
  rewrite messagesAt_cons, String.eqb_refl. simpl. constructor.
  rewrite (flat_map_ext_In (fun q => messagesAt q ((p, m) :: l))
                           (fun q => messagesAt q l)).
  2:{ intros q Hq. apply filter_In in Hq. destruct Hq as [_ Hq].
      apply negb_true_iff, String.eqb_neq in Hq.
      apply messagesAt_other_head. congruence. }
  rewrite <- IH.
  rewrite (flat_map_split (fun q => messagesAt q l) p (firstSeen (map fst l)))
    by apply firstSeen_NoDup.
  destruct (mem p (firstSeen (map fst l))) eqn:Hm; auto.
  rewrite messagesAt_absent; auto.
  intros H. apply (proj2 (firstSeen_In _ _)) in H.
  apply (proj2 (mem_In _ _)) in H. congruence.
Qed.

Lemma firstSeen_length : forall l, List.length (firstSeen l) <= List.length l.
Proof.
  induction l as [|x l IH]; simpl; auto.
  pose proof (filter_length_le (fun y => negb (y =? x)) (firstSeen l)). lia.
Qed.

Lemma firstSeen_NoDup_id : forall l, NoDup l -> firstSeen l = l.
Proof.
  induction 1 as [|x l Hx Hnd IH]; simpl; auto.
  rewrite IH. f_equal. apply filter_all. intros y Hy.
  apply negb_true_iff, String.eqb_neq. congruence.
Qed.

(** X4.  When the safe validation fails and no recorded path names a
    member inherited from [Object.prototype], [parse] neither loses nor
    repeats a message: the messages of all the entries together are the
    recorded messages, each as often as it was recorded.  Without union
    issues they are the messages of the issues, so their number is the
    number of issues. *)
Theorem parse_keeps_every_message : forall v issues,
    safeParseAsync zodSchema v opts = Normal (SafeParseError issues) ->
    plainPaths (recordedAll issues) = true ->
    exists es,
      parse v = Normal {| value := None; output_errors := es |}
      /\ Permutation (flat_map errors es) (map snd (recordedAll issues))
      /\ (forallb (fun i => negb (isUnion i)) issues = true ->
          Permutation (flat_map errors es) (map issue_message issues)
          /\ List.length (flat_map errors es) = List.length issues).
Proof.
  intros v issues Hfail Hown.
  exists (Object_values (pushAll (recordedAll issues) [])).
  split; [now apply parse_failure|].
  destruct (parse_errors_closed issues) as [Hperm _]. cbv zeta in Hperm.
  assert (Hall : Permutation
                   (flat_map errors (Object_values (pushAll (recordedAll issues) [])))
                   (map snd (recordedAll issues))).
  { rewrite !flat_map_concat_map.
    rewrite (Permutation_map errors Hperm). rewrite map_map. simpl.
    rewrite <- flat_map_concat_map. apply grouped_messages. }
  split; [exact Hall|].
  intros Hplain.
  assert (Hmsg : map snd (recordedAll issues) = map issue_message issues).
  { rewrite (recordedAll_plain issues Hplain). now rewrite map_map. }
  rewrite Hmsg in Hall. split; [exact Hall|].
  rewrite (Permutation_length Hall). apply length_map.
Qed.

(** X5.  When the safe validation fails and no recorded path names a
    member inherited from [Object.prototype], [parse] returns one entry per
    distinct recorded path: never more entries than recorded messages, an
    empty list exactly when nothing is recorded, and, for issues without
    unions, at most as many entries as issues, exactly as many when their
    normalized paths are pairwise distinct. *)
Theorem parse_entry_count : forall v issues,
    safeParseAsync zodSchema v opts = Normal (SafeParseError issues) ->
    plainPaths (recordedAll issues) = true ->
    exists es,
      parse v = Normal {| value := None; output_errors := es |}
      /\ List.length es = List.length (firstSeen (map fst (recordedAll issues)))
      /\ List.length es <= List.length (recordedAll issues)
      /\ (es = [] <-> recordedAll issues = [])
      /\ (forallb (fun i => negb (isUnion i)) issues = true ->
          List.length es <= List.length issues
          /\ (NoDup (map normalizedPath issues) ->
              List.length es = List.length issues)).
Proof.
  intros v issues Hfail Hown.
  exists (Object_values (pushAll (recordedAll issues) [])).
  split; [now apply parse_failure|].
  destruct (parse_errors_closed issues) as [Hperm _]. cbv zeta in Hperm.
  set (rec := recordedAll issues) in *.
  set (es := Object_values (pushAll rec [])) in *.
  assert (Hlen : List.length es = List.length (firstSeen (map fst rec))).
  { rewrite (Permutation_length Hperm). apply length_map. }
  assert (Hle : List.length es <= List.length rec).
  { rewrite Hlen. rewrite <- (length_map fst rec). apply firstSeen_length. }
  split; [exact Hlen|]. split; [exact Hle|]. split; [split|].
  - intros Hes. rewrite Hes in Hlen. simpl in Hlen.
    destruct rec as [|[p m] rec']; auto. simpl in Hlen. discriminate.
  - intros Hrec. rewrite Hrec in Hle. simpl in Hle.
    destruct es; auto. simpl in Hle. lia.
  - intros Hplain. subst rec. rewrite (recordedAll_plain issues Hplain) in *.
    rewrite length_map in Hle. split; [exact Hle|].
    intros Hnd. rewrite Hlen, map_map. simpl.
    rewrite firstSeen_NoDup_id by assumption. apply length_map.
Qed.

(** X16.  When the safe validation fails, [parse] throws a [TypeError]
    instead of returning its result exactly when one of the recorded paths
    names a member inherited from [Object.prototype] ([toString],
    [constructor], [__proto__], ...). *)
Theorem parse_inherited_path : forall v issues,
    safeParseAsync zodSchema v opts = Normal (SafeParseError issues) ->
    (parse v = Throw TypeError <-> plainPaths (recordedAll issues) = false)
    /\ ((exists r, parse v = Normal r) <-> plainPaths (recordedAll issues) = true).
Proof.
  intros v issues Hfail.
  destruct (plainPaths (recordedAll issues)) eqn:Hown.
  - rewrite (parse_failure v issues Hfail Hown). split; split; intros H;
      try discriminate; eauto.
  - rewrite (parse_inherited v issues Hfail Hown). split; split; intros H; auto.
    + destruct H as [r H]. discriminate.
    + discriminate.
Qed.

(** *** Splitting paths *)

Lemma takeDigits_app : forall s d t,
    isDigit d = false -> takeDigits (s ++ String d t) = takeDigits s.
Proof.
  induction s as [|c s IH]; intros d t Hd; simpl.
  - now rewrite Hd.
  - destruct (isDigit c); auto. now rewrite IH.
Qed.

Lemma dropDigits_app : forall s d t,
    isDigit d = false -> dropDigits (s ++ String d t) = (dropDigits s ++ String d t)%string.
Proof.
  induction s as [|c s IH]; intros d t Hd; simpl.
  - now rewrite Hd.
  - destruct (isDigit c); auto.
Qed.

Lemma take_drop_digits : forall s, (takeDigits s ++ dropDigits s)%string = s.
Proof.
  induction s as [|c s IH]; simpl; auto.
  destruct (isDigit c); simpl; auto. now rewrite IH.
Qed.

Lemma string_length_app : forall s t,
    String.length (s ++ t) = String.length s + String.length t.
Proof.
  induction s as [|c s IH]; intros t; simpl; auto.
Qed.

(** A match of the index pattern lies within the string. *)
Lemma matchIndex_length : forall c s ds,
    matchIndex (String c s) = Some ds -> S (String.length ds) <= String.length s.
Proof.
  intros c s ds H. unfold matchIndex in H.
  destruct (Ascii.eqb c "[") eqn:Ec.
  2:{ destruct c as [[] [] [] [] [] [] [] []]; try discriminate. }
  apply Ascii.eqb_eq in Ec. subst c.
  pose proof (take_drop_digits s) as Hs.
  destruct (takeDigits s) as [|d0 ds0] eqn:Et; [discriminate|].
  destruct (dropDigits s) as [|r0 rs] eqn:Ed; [discriminate|].
  assert (Hds : ds = String d0 ds0).
  { destruct r0 as [[] [] [] [] [] [] [] []]; try discriminate. now inversion H. }
  subst ds. rewrite <- Hs, string_length_app. simpl. lia.
Qed.

(** What follows a string does not change a match at its start, as long
    as it begins with neither a digit nor a closing bracket. *)
Lemma matchIndex_app : forall c s d t,
    isDigit d = false -> d <> "]"%char ->
    matchIndex (String c s ++ String d t) = matchIndex (String c s).
Proof.
  intros c s d t Hd Hb. unfold matchIndex. simpl append.
  destruct (Ascii.eqb c "[") eqn:Ec.
  2:{ destruct c as [[] [] [] [] [] [] [] []]; try discriminate; reflexivity. }
  apply Ascii.eqb_eq in Ec. subst c.
  rewrite takeDigits_app, dropDigits_app by assumption.
  destruct (takeDigits s) as [|d0 ds0]; [reflexivity|].
  destruct (dropDigits s) as [|r0 rs]; simpl.
  - destruct (Ascii.eqb d "]") eqn:E.
    + apply Ascii.eqb_eq in E. contradiction.
    + destruct d as [[] [] [] [] [] [] [] []]; try reflexivity. discriminate.
  - reflexivity.
Qed.

Lemma filterBoolean_piece : forall piece l,
    filterBoolean (Some piece :: l) = (filterBoolean [Some piece] ++ filterBoolean l)%list.
Proof.
  intros [|c s] l; reflexivity.
Qed.

Lemma filterBoolean_dot : forall piece l,
    filterBoolean (Some piece :: None :: l)
    = (filterBoolean [Some piece] ++ filterBoolean l)%list.
Proof.
  intros [|c s] l; reflexivity.
Qed.

Lemma filterBoolean_index : forall piece ds l,
    filterBoolean (Some piece :: Some ds :: l)
    = (filterBoolean [Some piece] ++ filterBoolean [Some ds] ++ filterBoolean l)%list.
Proof.
  intros [|c s] [|c' s'] l; reflexivity.
Qed.

(** Splitting a string followed by a separator: the pieces of the string,
    then what the separator and the rest give. *)
Lemma split_app_separator : forall d t rest,
    isDigit d = false -> d <> "]"%char ->
    (forall piece, splitFrom (String d t) 0 piece = Some piece :: rest) ->
    forall a skip piece,
      skip <= String.length a ->
      filterBoolean (splitFrom (a ++ String d t) skip piece)
      = (filterBoolean (splitFrom a skip piece) ++ filterBoolean rest)%list.
Proof.
  intros d t rest Hd Hb Hsep.
  induction a as [|c a IH]; intros skip piece Hskip.
  - simpl in Hskip. assert (skip = 0) by lia. subst skip.
    simpl append. rewrite Hsep. apply filterBoolean_piece.
  - destruct skip as [|k].
    + change ((String c a ++ String d t)%string) with (String c (a ++ String d t)).
      cbn [splitFrom].
      change (String c (a ++ String d t)) with ((String c a ++ String d t)%string).
      rewrite matchIndex_app by assumption.
      destruct (Ascii.eqb c ".").
      * rewrite !filterBoolean_dot, <- app_assoc. f_equal. apply IH. lia.
      * destruct (matchIndex (String c a)) as [ds|] eqn:Em.
        -- apply matchIndex_length in Em.
           rewrite !filterBoolean_index, <- !app_assoc. do 2 f_equal.
           apply IH. lia.
        -- apply IH. lia.
    + simpl. apply IH. simpl in Hskip. lia.
Qed.

Lemma splitFrom_skip : forall x b piece,
    splitFrom (x ++ b) (String.length x) piece = splitFrom b 0 piece.
Proof.
  induction x as [|c x IH]; intros b piece; simpl; auto.
Qed.

Lemma onlyDigits_take : forall ds d t,
    onlyDigits ds = true -> isDigit d = false ->
    takeDigits (ds ++ String d t) = ds /\ dropDigits (ds ++ String d t) = String d t
    /\ ds <> "".
Proof.
  induction ds as [|c ds IH]; intros d t Hds Hd; [discriminate|].
  destruct ds as [|c' ds'].
  - simpl in *. rewrite Hds, Hd. repeat split; auto. discriminate.
  - assert (Hc : isDigit c = true /\ onlyDigits (String c' ds') = true).
    { change (isDigit c && onlyDigits (String c' ds') = true) in Hds.
      now apply andb_true_iff in Hds. }
    destruct Hc as [Hc Hrest]. destruct (IH d t Hrest Hd) as [H1 [H2 _]].
    change ((String c (String c' ds') ++ String d t)%string)
      with (String c (String c' ds' ++ String d t)).
    cbn [takeDigits dropDigits]. rewrite Hc, H1, H2.
    repeat split; auto. discriminate.
Qed.

Lemma split_plain : forall s piece,
    plainKey s = true -> splitFrom s 0 piece = [Some (piece ++ s)%string].
Proof.
  induction s as [|c s IH]; intros piece Hp.
  - simpl. f_equal. f_equal. induction piece; simpl; congruence.
  - simpl in Hp. apply andb_true_iff in Hp. destruct Hp as [Hc Hs].
    apply andb_true_iff in Hc. destruct Hc as [Hdot Hbr].
    apply negb_true_iff in Hdot. apply negb_true_iff in Hbr.
    cbn [splitFrom]. rewrite Hdot.
    assert (Hm : matchIndex (String c s) = None).
    { unfold matchIndex.
      destruct c as [[] [] [] [] [] [] [] []]; try reflexivity. discriminate. }
    rewrite Hm, (IH _ Hs). f_equal. f_equal.
    clear. induction piece as [|p piece IHp]; simpl; congruence.
Qed.
Lemma digit_plain : forall c,
    isDigit c = true -> Ascii.eqb c "." = false /\ Ascii.eqb c "[" = false.
Proof.
  intros c H. destruct c as [[] [] [] [] [] [] [] []]; try discriminate; auto.
Qed.

Lemma onlyDigits_plain : forall ds,
    onlyDigits ds = true -> plainKey ds = true /\ ds <> "".
Proof.
  induction ds as [|c ds IH]; intros H; [discriminate|].
  split; [|discriminate].
  destruct ds as [|c' ds'].
  - simpl in *. destruct (digit_plain c H) as [H1 H2]. now rewrite H1, H2.
  - change (isDigit c && onlyDigits (String c' ds') = true) in H.
    apply andb_true_iff in H. destruct H as [Hc Hr].
    destruct (digit_plain c Hc) as [H1 H2].
    change (negb (Ascii.eqb c ".") && negb (Ascii.eqb c "[")
            && plainKey (String c' ds') = true).
    rewrite H1, H2. simpl. now apply IH.
Qed.

Lemma segments_plain : forall s, plainKey s = true -> s <> "" -> segments s = [s].
Proof.
  intros s Hp Hne. unfold segments, split. rewrite (split_plain s "" Hp). simpl.
  destruct s; [contradiction|reflexivity].
Qed.

Lemma segments_dot_app : forall a b,
    segments (a ++ String "." b) = (segments a ++ segments b)%list.
Proof.
  intros a b. unfold segments, split.
  rewrite (split_app_separator "." b (None :: splitFrom b 0 "")); auto.
  - discriminate.
  - lia.
Qed.

Lemma segments_index_app : forall a ds b,
    onlyDigits ds = true ->
    segments (a ++ String "[" (ds ++ String "]" b))
    = (segments a ++ ds :: segments b)%list.
Proof.
  intros a ds b Hds. unfold segments, split.
  destruct (onlyDigits_take ds "]" b Hds eq_refl) as [Ht [Hd Hne]].
  rewrite (split_app_separator "[" (ds ++ String "]" b)
             (Some ds :: splitFrom b 0 "")); auto.
  - f_equal. destruct ds; [contradiction|reflexivity].
  - discriminate.
  - intros piece. cbn [splitFrom]. simpl Ascii.eqb. cbv iota.
    unfold matchIndex. rewrite Ht, Hd.
    destruct ds as [|d0 ds0]; [contradiction|].
    do 2 f_equal.
    replace (S (String.length (String d0 ds0)))
      with (String.length (String d0 ds0 ++ "]")) by (rewrite string_length_app; simpl; lia).
    replace ((String d0 ds0 ++ String "]" b)%string)
      with (((String d0 ds0 ++ "]") ++ b)%string).
    + apply splitFrom_skip.
    + clear. generalize (String d0 ds0). induction s; simpl; congruence.
  - lia.
Qed.

(** X6.  A dot separates a path into two paths: the segments of [a.b] are
    the segments of [a] followed by those of [b]; empty pieces (a leading,
    trailing or doubled dot) give no segment. *)
Theorem segments_dot : forall a b,
    segments (a ++ "." ++ b) = (segments a ++ segments b)%list
    /\ segments ("." ++ b) = segments b
    /\ segments (a ++ ".") = segments a.
Proof.
  intros a b. split; [apply segments_dot_app|]. split.
  - apply (segments_dot_app "" b).
  - change (a ++ ".")%string with (a ++ String "." "")%string.
    rewrite segments_dot_app. apply app_nil_r.
Qed.

(** X7.  An index in brackets and the same index between dots are read
    alike: for a non-empty string of digits [n], the segments of [a[n]b]
    are those of [a], then [n], then those of [b], which are also the
    segments of [a.n.b]. *)
Theorem segments_bracket_index : forall a ds b,
    onlyDigits ds = true ->
    segments (a ++ "[" ++ ds ++ "]" ++ b) = (segments a ++ ds :: segments b)%list
    /\ segments (a ++ "[" ++ ds ++ "]" ++ b) = segments (a ++ "." ++ ds ++ "." ++ b).
Proof.
  intros a ds b Hds.
  assert (H : segments (a ++ "[" ++ ds ++ "]" ++ b)
              = (segments a ++ ds :: segments b)%list)
    by now apply segments_index_app.
  split; [exact H|]. rewrite H.
  change (a ++ "." ++ ds ++ "." ++ b)%string
    with (a ++ String "." (ds ++ String "." b))%string.
  rewrite !segments_dot_app.
  destruct (onlyDigits_plain ds Hds) as [Hp Hne].
  now rewrite (segments_plain ds Hp Hne).
Qed.

(** X8.  The path of an issue, joined with dots as [processIssues] does,
    splits back into its segments as [getSchemaForPath] does, provided no
    segment is empty or holds a dot or an opening bracket. *)
Theorem issue_path_round_trip : forall ipath,
    Forall (fun s => plainKey (segString s) = true /\ segString s <> "") ipath ->
    segments (join "." ipath) = map segString ipath.
Proof.
  intros ipath H. unfold join. induction H as [|x l [Hp Hne] Hl IH]; [reflexivity|].
  destruct l as [|y l'].
  - simpl. now apply segments_plain.
  - change (String.concat "." (map segString (x :: y :: l')))
      with (segString x ++ String "." (String.concat "." (map segString (y :: l'))))%string.
    rewrite segments_dot_app, IH, (segments_plain _ Hp Hne). reflexivity.
Qed.

(** *** Further properties of the path walk *)

Lemma getSchemaForPath_resolve : forall p root,
    isObjectSchema root = true -> isNotNestedPath p = false ->
    getSchemaForPath p root = resolve (segments p) (Some root).
Proof.
  intros p root Hroot Hnested. unfold getSchemaForPath, segments.
  rewrite Hroot, Hnested. simpl negb. cbv iota zeta.
  apply walk_all, filterBoolean_nonempty.
Qed.

Lemma segments_nonempty : forall p, Forall (fun q => q <> "") (segments p).
Proof.
  intros p. apply filterBoolean_nonempty.
Qed.

Lemma resolve_None : forall l, resolve l None = None.
Proof.
  now destruct l.
Qed.

Lemma resolve_skip : forall rest s,
    isObjectSchema s = false ->
    isArraySchema s = false \/ Forall (fun q => isIndex q = false) rest ->
    resolve rest (Some s) = Some s.
Proof.
  induction rest as [|q rest IH]; intros s Hobj Hskip; [reflexivity|].
  simpl. rewrite Hobj.
  destruct Hskip as [Harr|Hidx].
  - rewrite Harr, andb_false_r. apply IH; auto.
  - inversion Hidx as [|? ? Hq Hrest]; subst. rewrite Hq. simpl. apply IH; auto.
Qed.

(** X9.  Resolution follows the dots: a nested path [a.b] on an object
    schema resolves to what the walk over the segments of [b] gives when it
    starts from what the walk over the segments of [a] gave. *)
Theorem getSchemaForPath_dot : forall a b root,
    isObjectSchema root = true ->
    isNotNestedPath (a ++ "." ++ b) = false ->
    getSchemaForPath (a ++ "." ++ b) root
    = walk (S (List.length (segments b))) 0 (segments b)
        (walk (S (List.length (segments a))) 0 (segments a) (Some root)).
Proof.
  intros a b root Hroot Hnested.
  rewrite (getSchemaForPath_resolve _ _ Hroot Hnested).
  rewrite !walk_all by apply segments_nonempty.
  change (a ++ "." ++ b)%string with (a ++ String "." b)%string.
  now rewrite segments_dot_app, resolve_app.
Qed.

(** X10.  On a root schema that is not object-shaped, [getSchemaForPath]
    finds nothing whatever the path, and [describe] reports every
    non-empty path as [{ required: false, exists: false }], writing no
    diagnostic. *)
Theorem describe_non_object_root : forall p,
    isObjectSchema zodSchema = false ->
    getSchemaForPath p zodSchema = None
    /\ (p <> "" -> describe (Some p) = (Normal notFound, [])).
Proof.
  intros p Hroot.
  assert (H : getSchemaForPath p zodSchema = None).
  { unfold getSchemaForPath. now rewrite Hroot. }
  split; [exact H|].
  intros Hp. unfold describe, describeTry. destruct p as [|c s]; [contradiction|].
  now rewrite H.
Qed.

(** X11.  A field that an object schema does not declare ends the walk:
    when the walk reaches an object-shaped schema that has no field of the
    name the current segment gives, and that name is not one every object
    inherits from [Object.prototype], [getSchemaForPath] finds nothing,
    whatever segments remain. *)
Theorem getSchemaForPath_missing_field : forall p root pre k rest obj,
    isObjectSchema root = true ->
    isNotNestedPath p = false ->
    segments p = (pre ++ k :: rest)%list ->
    walk (S (List.length pre)) 0 pre (Some root) = Some obj ->
    isObjectSchema obj = true ->
    Obj.get k (shape obj) = None ->
    Obj.inheritedName k = false ->
    getSchemaForPath p root = None.
Proof.
  intros p root pre k rest obj Hroot Hnested Hseg Hpre Hobj Hget Hown.
  pose proof (segments_nonempty p) as Hne. rewrite Hseg in Hne.
  apply Forall_app in Hne. destruct Hne as [Hne_pre _].
  rewrite walk_all in Hpre by assumption.
  rewrite (getSchemaForPath_resolve _ _ Hroot Hnested), Hseg, resolve_app, Hpre.
  simpl. rewrite Hobj. unfold readShape, Obj.read. rewrite Hget, Hown.
  apply resolve_None.
Qed.

(** X17.  A segment that names a member every object inherits from
    [Object.prototype] ([toString], [constructor], ...) and no declared
    field is not a missing field: the walk takes the inherited member for a
    schema and passes over the remaining segments, so [getSchemaForPath]
    returns the inherited member, and [describe], which cannot ask it for
    its optionality, reports [{ required: false, exists: false }] with one
    diagnostic line in a development build. *)
Theorem getSchemaForPath_inherited_member : forall p pre k rest obj,
    isObjectSchema zodSchema = true ->
    isNotNestedPath p = false ->
    segments p = (pre ++ k :: rest)%list ->
    walk (S (List.length pre)) 0 pre (Some zodSchema) = Some obj ->
    isObjectSchema obj = true ->
    Obj.get k (shape obj) = None ->
    Obj.inheritedName k = true ->
    getSchemaForPath p zodSchema = Some (Inherited k)
    /\ fst (describe (Some p)) = Normal notFound
    /\ List.length (snd (describe (Some p))) = (if DEV then 1 else 0).
Proof.
  intros p pre k rest obj Hroot Hnested Hseg Hpre Hobj Hget Hinh.
  pose proof (segments_nonempty p) as Hne. rewrite Hseg in Hne.
  apply Forall_app in Hne. destruct Hne as [Hne_pre _].
  rewrite walk_all in Hpre by assumption.
  assert (H : getSchemaForPath p zodSchema = Some (Inherited k)).
  { rewrite (getSchemaForPath_resolve _ _ Hroot Hnested), Hseg, resolve_app, Hpre.
    simpl. rewrite Hobj. unfold readShape, Obj.read. rewrite Hget, Hinh.
    apply resolve_skip.
    - unfold isObjectSchema, getDefType. now destruct layout.
    - left. unfold isArraySchema, getDefType. now destruct layout. }
  split; [exact H|].
  assert (Hp : p <> "").
  { intros ->. destruct pre; discriminate. }
  destruct p as [|c s]; [contradiction|].
  unfold describe, describeTry. rewrite H. simpl. now destruct DEV.
Qed.

(** X12.  Segments the walk cannot use are passed over: once the walk has
    reached a schema that is neither object-shaped nor array-shaped, or an
    array-shaped one when none of the remaining segments is an index, the
    remaining segments are ignored and that schema is the result. *)
Theorem getSchemaForPath_ignores_segments : forall p root pre rest s,
    isObjectSchema root = true ->
    isNotNestedPath p = false ->
    segments p = (pre ++ rest)%list ->
    walk (S (List.length pre)) 0 pre (Some root) = Some s ->
    isObjectSchema s = false ->
    isArraySchema s = false \/ Forall (fun q => isIndex q = false) rest ->
    getSchemaForPath p root = Some s.
Proof.
  intros p root pre rest s Hroot Hnested Hseg Hpre Hobj Hskip.
  pose proof (segments_nonempty p) as Hne. rewrite Hseg in Hne.
  apply Forall_app in Hne. destruct Hne as [Hne_pre _].
  rewrite walk_all in Hpre by assumption.
  rewrite (getSchemaForPath_resolve _ _ Hroot Hnested), Hseg, resolve_app, Hpre.
  now apply resolve_skip.
Qed.
(** *** Further properties of [describe] and [getDefaults] *)

(** X13.  Whatever the path, [describe] never reports a field as required
    without reporting that it exists, and it writes at most one diagnostic
    line: none in a production build, and otherwise only together with the
    not-found report. *)
Theorem describe_guarantees : forall p,
    exists d warnings,
      describe p = (Normal d, warnings)
      /\ (required d = true -> exists_ d = true)
      /\ (DEV = false -> warnings = [])
      /\ (warnings <> [] -> d = notFound /\ List.length warnings = 1).
Proof.
  intros p. unfold describe.
  destruct (describeTry p) as [d|e] eqn:Htry.
  - exists d, []. split; [reflexivity|]. split; [|split].
    + unfold describeTry in Htry.
      destruct p as [[|c s]|].
      * destruct (isOptional zodSchema); inversion Htry; reflexivity.
      * destruct (getSchemaForPath (String c s) zodSchema) as [t|].
        -- destruct (isOptional t); inversion Htry; reflexivity.
        -- inversion Htry. discriminate.
      * destruct (isOptional zodSchema); inversion Htry; reflexivity.
    + reflexivity.
    + intros H. now contradiction H.
  - eexists. eexists. split; [reflexivity|]. split; [discriminate|]. split.
    + intros ->. reflexivity.
    + intros H. split; [reflexivity|]. destruct DEV; [reflexivity|].
      now contradiction H.
Qed.

(** X14.  For a non-empty path, [describe] reports that the field exists
    exactly when [getSchemaForPath] finds a schema for the path and that
    schema answers the optionality query; the field is then required
    exactly when it is not optional, and nothing is written. *)
Theorem describe_path_found : forall p,
    p <> "" ->
    exists d warnings,
      describe (Some p) = (Normal d, warnings)
      /\ (exists_ d = true <->
          exists t b, getSchemaForPath p zodSchema = Some t
                      /\ isOptional t = Normal b)
      /\ (forall t b, getSchemaForPath p zodSchema = Some t ->
            isOptional t = Normal b ->
            d = {| required := negb b; exists_ := true |} /\ warnings = []).
Proof.
  intros p Hp. destruct p as [|c s]; [contradiction|].
  unfold describe, describeTry.
  destruct (getSchemaForPath (String c s) zodSchema) as [t|] eqn:Hget.
  - destruct (isOptional t) as [b|e] eqn:Hopt.
    + eexists. eexists. split; [reflexivity|]. split; [split|].
      * intros _. exists t, b. auto.
      * reflexivity.
      * intros t' b' [= <-] Hb. rewrite Hopt in Hb. inversion Hb. auto.
    + eexists. eexists. split; [reflexivity|]. split; [split|].
      * discriminate.
      * intros [t' [b' [[= <-] Hb]]]. congruence.
      * intros t' b' [= <-] Hb. congruence.
  - eexists. eexists. split; [reflexivity|]. split; [split|].
    + discriminate.
    + intros [t' [b' [H _]]]. discriminate.
    + intros t' b' H. discriminate.
Qed.

Lemma getDefaults_object : forall sh,
    NoDup (map fst sh) ->
    (forall key field, In (key, field) sh -> returns (fieldDefault field) = true) ->
    exists props,
      getDefaults (ZodObject sh) = Normal (JsObject props)
      /\ map (fun e => (fst e, Normal (snd e))) props
         = Obj.ownEntries (map (fun kv => (fst kv, fieldDefault (snd kv))) sh).
Proof.
  intros sh Hnd Hret.
  set (fields := map (fun kv => (fst kv, fieldDefault (snd kv))) sh).
  destruct (sequenceEntries_returns (Obj.ownEntries fields)) as [es [Hes Hmap]].
  { intros [k c] Hin.
    apply (Permutation_in _ (ownEntries_perm fields)) in Hin.
    apply in_map_iff in Hin. destruct Hin as [[k' f] [Heq Hin]].
    simpl in Heq. injection Heq as Hk Hc. subst k c. simpl.
    now apply (Hret k' f). }
  exists es. split; [|exact Hmap].
  rewrite getDefaults_entries. unfold Object_entries. rewrite <- ownEntries_map.
  fold fields. rewrite Hes. simpl. do 2 f_equal. apply fromEntries_NoDup.
  assert (Hk : map fst es = map fst (Obj.ownEntries fields)).
  { rewrite <- Hmap. rewrite map_map. reflexivity. }
  rewrite Hk.
  apply (Permutation_NoDup
           (Permutation_map fst (Permutation_sym (ownEntries_perm fields)))).
  unfold fields. now rewrite keys_map.
Qed.

Lemma getDefaults_field_throws : forall sh key field,
    In (key, field) sh ->
    returns (fieldDefault field) = false ->
    returns (getDefaults (ZodObject sh)) = false.
Proof.
  intros sh key field Hin Hthrow.
  rewrite getDefaults_entries.
  assert (H : returns (sequenceEntries
                         (map (fun kv => (fst kv, fieldDefault (snd kv)))
                              (Object_entries sh))) = false).
  { apply (sequenceEntries_throws _ (key, fieldDefault field)); [|exact Hthrow].
    apply in_map_iff. exists (key, field). split; [reflexivity|].
    apply (Permutation_in _ (Permutation_sym (ownEntries_perm sh)) Hin). }
  destruct (sequenceEntries _); [discriminate|reflexivity].
Qed.

(** X15.  On an object schema whose field names are distinct and each of
    whose fields gives its default without raising (the call of a
    default-value provider returns, the extraction on a nested object
    schema returns), the mapping [getDefaults] returns has one property for
    every declared field and no other, in the order in which the fields of
    the schema are enumerated. *)
Theorem getDefaults_keys : forall sh,
    NoDup (map fst sh) ->
    (forall key field, In (key, field) sh -> returns (fieldDefault field) = true) ->
    exists props,
      getDefaults (ZodObject sh) = Normal (JsObject props)
      /\ map fst props = map fst (Object_entries sh)
      /\ (forall k, In k (map fst props) <-> In k (map fst sh)).
Proof.
  intros sh Hnd Hret.
  destruct (getDefaults_object sh Hnd Hret) as [props [Hprops Hmap]].
  assert (Hkeys : map fst props = map fst (Object_entries sh)).
  { apply (f_equal (map fst)) in Hmap. rewrite map_map in Hmap. simpl in Hmap.
    rewrite ownEntries_map, keys_map in Hmap. exact Hmap. }
  assert (Hperm : Permutation (map fst (Object_entries sh)) (map fst sh)).
  { apply Permutation_map, ownEntries_perm. }
  exists props. split; [exact Hprops|]. split; [exact Hkeys|].
  intros k. rewrite Hkeys. split; intros H.
  - apply (Permutation_in _ Hperm H).
  - apply (Permutation_in _ (Permutation_sym Hperm) H).
Qed.

(** X18.  Under the same conditions the value [getDefaults] stores for a
    field is what the field gives: what the call of its default-value
    provider returns for a field with a default, the extracted defaults of
    a field that is itself an object schema, and [undefined] for any other
    field; a name the schema does not declare gets no property. *)
Theorem getDefaults_field_values : forall sh,
    NoDup (map fst sh) ->
    (forall key field, In (key, field) sh -> returns (fieldDefault field) = true) ->
    exists props,
      getDefaults (ZodObject sh) = Normal (JsObject props)
      /\ forall key,
          option_map Normal (Obj.get key props)
          = match Obj.get key sh with
            | Some (ZodDefault _ defaultValue) => Some (callDefaultValue defaultValue)
            | Some (ZodObject fields) => Some (getDefaults (ZodObject fields))
            | Some _ => Some (Normal JsUndefined)
            | None => None
            end.
Proof.
  intros sh Hnd Hret.
  destruct (getDefaults_object sh Hnd Hret) as [props [Hprops Hmap]].
  exists props. split; [exact Hprops|]. intros key.
  rewrite <- (get_map (@Normal JsValue) props key).
  change (map (fun kv => (fst kv, Normal (snd kv))) props)
    with (map (fun e : string * JsValue => (fst e, Normal (snd e))) props).
  rewrite Hmap.
  rewrite (get_perm (map (fun kv => (fst kv, fieldDefault (snd kv))) sh)).
  - rewrite get_map. destruct (Obj.get key sh) as [[f|t|i d|i|k|n]|]; reflexivity.
  - now rewrite keys_map.
  - apply ownEntries_perm.
Qed.

(** X19.  [getDefaults] raises what the extraction of a field raises: on
    an object schema one of whose fields has a default, it raises whenever
    the library keeps the default as a value instead of a function (the
    layout of zod 4, where the call of [_def.defaultValue] is a call of a
    value that is no function), and on the other layout whenever the
    provider itself raises; it raises also when the extraction on a nested
    object schema does. *)
Theorem getDefaults_raises : forall sh key,
    (forall inner defaultValue,
       layout = Zod4 ->
       In (key, ZodDefault inner defaultValue) sh ->
       returns (getDefaults (ZodObject sh)) = false)
    /\ (forall inner e,
          In (key, ZodDefault inner (Throw e)) sh ->
          returns (getDefaults (ZodObject sh)) = false)
    /\ (forall fields,
          In (key, ZodObject fields) sh ->
          returns (getDefaults (ZodObject fields)) = false ->
          returns (getDefaults (ZodObject sh)) = false).
Proof.
  intros sh key. split; [|split].
  - intros inner dv Hl Hin. apply (getDefaults_field_throws sh key _ Hin).
    simpl. unfold callDefaultValue. rewrite Hl. now destruct dv.
  - intros inner e Hin. apply (getDefaults_field_throws sh key _ Hin).
    simpl. unfold callDefaultValue. now destruct layout.
  - intros fields Hin Hthrow. apply (getDefaults_field_throws sh key _ Hin).
    exact Hthrow.
Qed.

(** X20.  [cast] raises exactly when the strict parse throws and the
    extraction of the defaults raises in the fallback, and then it raises
    what the extraction raised; what the strict parse threw is dropped. *)
Theorem cast_raises_iff : forall values e,
    cast values = Throw e
    <-> (exists e0, zodParse zodSchema values = Throw e0)
        /\ getDefaults zodSchema = Throw e.
Proof.
  intros values e. unfold cast.
  destruct (zodParse zodSchema values) as [v|e0].
  - split; [discriminate|]. intros [[e1 H] _]. discriminate.
  - destruct (getDefaults zodSchema) as [d|e1]; simpl.
    + split; [|intros [_ H]; discriminate].
      destruct (isObject d && isObject values); discriminate.
    + split.
      * intros H. split; [now exists e0|exact H].
      * now intros [_ H].
Qed.

(** X21.  On a schema that is not an instance of the library's object
    class, [getDefaults] returns [undefined]; so when the strict parse
    throws, and [undefined] is no plain mapping, [cast] returns the value it
    was given. *)
Theorem cast_non_object_schema : forall values e,
    isZodObject zodSchema = false ->
    isObject JsUndefined = false ->
    zodParse zodSchema values = Throw e ->
    getDefaults zodSchema = Normal JsUndefined
    /\ cast values = Normal values.
Proof.
  intros values e Hroot Hundef Hthrow.
  pose proof (getDefaults_not_object _ Hroot) as Hd.
  split; [exact Hd|]. unfold cast. rewrite Hthrow, Hd. simpl. now rewrite Hundef.
Qed.

End Adapter.

(** ** The claims on concrete inputs *)



Lemma parse_success_witness :
  Sample.accept Sample.formSchema Sample.goodForm JsUndefined
  = Normal (SafeParseSuccess Sample.goodForm)
  /\ parse Shared.normalizeFormPath Sample.accept Sample.formSchema JsUndefined
       Sample.goodForm
     = Normal {| value := Some Sample.goodForm; output_errors := [] |}.
Proof.
  split; [reflexivity|].
  apply (parse_success Shared.normalizeFormPath Sample.accept Sample.formSchema
           JsUndefined Sample.goodForm Sample.goodForm).
  reflexivity.
Defined.

Lemma parse_union_branches_witness :
  Sample.failWith [Sample.unionIssue] Sample.formSchema JsNull JsUndefined
  = Normal (SafeParseError [Sample.unionIssue])
  /\ plainPaths (recordedAll Shared.normalizeFormPath [Sample.unionIssue]) = true
  /\ In Sample.unionIssue [Sample.unionIssue]
  /\ isUnion Sample.unionIssue = true
  /\ exists es,
      parse Shared.normalizeFormPath (Sample.failWith [Sample.unionIssue])
        Sample.formSchema JsUndefined JsNull
      = Normal {| value := None; output_errors := es |}
      /\ (exists e, In e es /\ path e = "data.x"
                    /\ In "Expected number, received boolean" (errors e))
      /\ (exists e, In e es /\ path e = "data" /\ In "Invalid input" (errors e)).
Proof.
  split; [reflexivity|]. split; [reflexivity|]. split; [now left|].
  split; [reflexivity|].
  destruct (parse_union_branches Shared.normalizeFormPath
              (Sample.failWith [Sample.unionIssue]) Sample.formSchema JsUndefined
              JsNull [Sample.unionIssue] Sample.unionIssue
              eq_refl eq_refl (or_introl eq_refl) eq_refl)
    as [es [Hparse [Hbranch [_ Hown]]]].
  exists es. split; [exact Hparse|]. split.
  - apply (Hbranch (mkZodIssue "invalid_type" [PKey "data"; PKey "x"]
                      "Expected number, received boolean" None None)).
    + eapply within_branch; [reflexivity| |apply within_here].
      simpl. right. now left.
    + reflexivity.
  - apply Hown. discriminate.
Defined.

(** C2, as stated, fails.  As zod 3 reports it, the union issue at [data]
    is reported as an entry of its own, holding only the union's message,
    next to the entry of its branch issues; the result is not that of the
    branch issues.  As zod 4 reports it, with the issues of the branches
    under [errors], the opaque entry is all that is reported, and for a
    union at the root nothing is reported. *)
Lemma parse_union_opaque_entry_counterexample :
  parse Shared.normalizeFormPath (Sample.failWith [Sample.unionIssue])
    Sample.formSchema JsUndefined JsNull
  = Normal {| value := None;
              output_errors :=
                [ {| path := "data.x";
                     errors := ["Expected string, received boolean";
                                "Expected number, received boolean"] |};
                  {| path := "data"; errors := ["Invalid input"] |} ] |}
  /\ parse Shared.normalizeFormPath (Sample.failWith [Sample.unionIssue])
       Sample.formSchema JsUndefined JsNull
     <> parse Shared.normalizeFormPath
          (Sample.failWith (branchIssues Sample.unionIssue))
          Sample.formSchema JsUndefined JsNull
  /\ parse Shared.normalizeFormPath (Sample.failWith [Sample.unionIssueV4])
       Sample.formSchema JsUndefined JsNull
     = Normal {| value := None;
                 output_errors := [ {| path := "data"; errors := ["Invalid input"] |} ] |}
  /\ parse Shared.normalizeFormPath (Sample.failWith [Sample.rootUnionIssueV4])
       (ZodLeaf ZodAny) JsUndefined (JsBool true)
     = Normal {| value := None; output_errors := [] |}.
Proof.
  split; [reflexivity|]. split; [vm_compute; discriminate|].
  split; reflexivity.
Qed.



Lemma array_index_descent_continues_witness :
  isObjectSchema Zod3 Sample.listSchema = true
  /\ Shared.isNotNestedPath "items[0].name" = false
  /\ filterBoolean (split "items[0].name") = (["items"] ++ "0" :: ["name"])%list
  /\ walk Zod3 Shared.isIndex 2 0 ["items"] (Some Sample.listSchema)
     = Some (ZodArray Sample.itemSchema)
  /\ isArraySchema Zod3 (ZodArray Sample.itemSchema) = true
  /\ Shared.isIndex "0" = true
  /\ getSchemaForPath Zod3 Shared.isNotNestedPath Shared.cleanupNonNestedPath
       Shared.isIndex "items[0].name" Sample.listSchema
     = walk Zod3 Shared.isIndex 2 0 ["name"] (Some Sample.itemSchema).
Proof.
  repeat (split; [reflexivity|]).
  apply (array_index_descent_continues Zod3 Shared.isNotNestedPath
           Shared.cleanupNonNestedPath Shared.isIndex
           "items[0].name" Sample.listSchema ["items"] "0" ["name"]
           (ZodArray Sample.itemSchema));
    reflexivity.
Defined.

(** C3, as stated, fails: on [items[0].name], over schemas with the
    [typeName] of zod 3, the walk reaches the array [items] with the index
    segment [0], descends into the element type and goes on to resolve
    [name]; the result is the schema of [name], not the element type of the
    array.  Over schemas without [typeName] (zod 4) the routine descends
    nowhere and the result is [null], which is not the element type
    either. *)
Lemma array_descent_returns_immediately_counterexample :
  walk Zod3 Shared.isIndex 2 0 ["items"] (Some Sample.listSchema)
  = Some (ZodArray Sample.itemSchema)
  /\ isArraySchema Zod3 (ZodArray Sample.itemSchema) = true
  /\ def_type (ZodArray Sample.itemSchema) = Some Sample.itemSchema
  /\ Shared.isIndex "0" = true
  /\ filterBoolean (split "items[0].name") = ["items"; "0"; "name"]
  /\ getSchemaForPath Zod3 Shared.isNotNestedPath Shared.cleanupNonNestedPath
       Shared.isIndex "items[0].name" Sample.listSchema
     = Some (ZodLeaf ZodString)
  /\ getSchemaForPath Zod3 Shared.isNotNestedPath Shared.cleanupNonNestedPath
       Shared.isIndex "items[0].name" Sample.listSchema
     <> Some Sample.itemSchema
  /\ getSchemaForPath Zod4 Shared.isNotNestedPath Shared.cleanupNonNestedPath
       Shared.isIndex "items[0].name" Sample.listSchema
     = None.
Proof.
  repeat (split; [reflexivity|]). split; [vm_compute; discriminate|reflexivity].
Qed.


(** C5 fails on the code: [cast] raises.  On an object schema with a
    default, with zod 4, the strict parse throws on [{ age: "ten" }], the
    fallback calls [_def.defaultValue], which is the default itself and no
    function, and the [TypeError] leaves [cast].  With zod 3 the same
    happens when the provider of a default throws. *)
Theorem cast_raises_in_fallback :
  Sample.rejectAll Sample.profileSchema (JsObject [("age", JsString "ten")])
  = Throw (JsString "ZodError")
  /\ cast Zod4 Shared.isObject Shared.merge Sample.rejectAll Sample.profileSchema
       (JsObject [("age", JsString "ten")])
     = Throw TypeError
  /\ cast Zod3 Shared.isObject Shared.merge Sample.rejectAll
       Sample.throwingDefaultSchema (JsObject [])
     = Throw (JsString "no id").
Proof.
  repeat split; reflexivity.
Qed.

(** C9 fails on the code: with zod 4, on an object schema one of whose
    fields has a default, the extraction does not use the default: it calls
    [_def.defaultValue], which is the default itself and no function, and
    throws a [TypeError].  Where the library keeps the default as a
    function (zod 3) the same schema gives its defaults. *)
Theorem getDefaults_calls_stored_value :
  getDefaults Zod4 Sample.profileSchema = Throw TypeError
  /\ getDefaults Zod3 Sample.profileSchema
     = Normal (JsObject [("name", JsString "anonymous");
                         ("address", JsObject [("city", JsString "Oslo");
                                               ("zip", JsUndefined)]);
                         ("age", JsUndefined)]).
Proof.
  split; reflexivity.
Qed.

Lemma describe_no_path_witness :
  noPath None = true
  /\ isOptional Sample.isOptional Sample.formSchema = Normal false
  /\ describe Zod4 Shared.isNotNestedPath Shared.cleanupNonNestedPath Shared.isIndex
       Sample.isOptional true Sample.formSchema None
     = (Normal {| required := true; exists_ := true |}, [])
  /\ isOptional Sample.isOptionalThrowing (ZodLeaf ZodDate)
     = Throw (JsString "Synchronous parse encountered promise.")
  /\ fst (describe Zod4 Shared.isNotNestedPath Shared.cleanupNonNestedPath
            Shared.isIndex Sample.isOptionalThrowing true (ZodLeaf ZodDate) None)
     = Normal notFound.
Proof.
  split; [reflexivity|]. split; [reflexivity|]. split.
  - apply (proj1 (describe_no_path Zod4 Shared.isNotNestedPath
                    Shared.cleanupNonNestedPath Shared.isIndex Sample.isOptional true
                    Sample.formSchema None eq_refl) false).
    reflexivity.
  - split; [reflexivity|].
    apply (proj2 (describe_no_path Zod4 Shared.isNotNestedPath
                    Shared.cleanupNonNestedPath Shared.isIndex
                    Sample.isOptionalThrowing true (ZodLeaf ZodDate) None eq_refl)
             (JsString "Synchronous parse encountered promise.")).
    reflexivity.
Defined.

(** C8, as stated, fails: on a schema whose [isOptional] raises,
    [describe] without a path reports that the schema does not exist. *)
Lemma describe_no_path_raising_counterexample :
  isOptional Sample.isOptionalThrowing (ZodLeaf ZodDate)
  = Throw (JsString "Synchronous parse encountered promise.")
  /\ fst (describe Zod4 Shared.isNotNestedPath Shared.cleanupNonNestedPath
            Shared.isIndex Sample.isOptionalThrowing true (ZodLeaf ZodDate) None)
     = Normal {| required := false; exists_ := false |}
  /\ forall layout r,
      fst (describe layout Shared.isNotNestedPath Shared.cleanupNonNestedPath
             Shared.isIndex Sample.isOptionalThrowing true (ZodLeaf ZodDate) None)
      <> Normal {| required := r; exists_ := true |}.
Proof.
  split; [reflexivity|]. split; [reflexivity|].
  intros layout r. destruct layout; vm_compute; discriminate.
Qed.

Lemma describe_never_raises_witness :
  (getSchemaForPath Zod3 Shared.isNotNestedPath Shared.cleanupNonNestedPath
     Shared.isIndex "when" Sample.eventSchema = Some (ZodLeaf ZodDate)
   /\ isOptional Sample.isOptionalThrowing (ZodLeaf ZodDate)
      = Throw (JsString "Synchronous parse encountered promise.")
   /\ fst (describe Zod3 Shared.isNotNestedPath Shared.cleanupNonNestedPath
             Shared.isIndex Sample.isOptionalThrowing true Sample.eventSchema
             (Some "when"))
      = Normal notFound)
  /\ (getSchemaForPath Zod3 Shared.isNotNestedPath Shared.cleanupNonNestedPath
        Shared.isIndex "title.size.unit" Sample.formSchema = None
      /\ fst (describe Zod3 Shared.isNotNestedPath Shared.cleanupNonNestedPath
                Shared.isIndex Sample.isOptional true Sample.formSchema
                (Some "title.size.unit"))
         = Normal notFound).
Proof.
  split.
  - split; [reflexivity|]. split; [reflexivity|].
    destruct (describe_never_raises Zod3 Shared.isNotNestedPath
                Shared.cleanupNonNestedPath Shared.isIndex Sample.isOptionalThrowing
                true Sample.eventSchema (Some "when"))
      as [d [w [Hd [_ [_ [Hthrow _]]]]]].
    rewrite Hd. simpl. f_equal.
    apply (Hthrow "when" (ZodLeaf ZodDate)
             (JsString "Synchronous parse encountered promise."));
      reflexivity.
  - split; [reflexivity|].
    destruct (describe_never_raises Zod3 Shared.isNotNestedPath
                Shared.cleanupNonNestedPath Shared.isIndex Sample.isOptional true
                Sample.formSchema (Some "title.size.unit"))
      as [d [w [Hd [Hnone _]]]].
    rewrite Hd. simpl. f_equal.
    apply (Hnone "title.size.unit"); reflexivity.
Defined.

(** ** The further properties on concrete inputs *)

Lemma processIssues_lookup_witness :
  plainPaths (recordedAll Shared.normalizeFormPath Sample.formIssues) = true
  /\ exists errs1,
      processIssues Shared.normalizeFormPath Sample.formIssues
        [("email", {| path := "email"; errors := ["Required"] |})]
      = Normal errs1
      /\ Obj.get "email" errs1
         = Some {| path := "email";
                   errors := ["Required"; "Invalid email format"; "Email is too short"] |}
      /\ Obj.get "age" errs1
         = Some {| path := "age"; errors := ["Must be at least 18 years old"] |}
      /\ Obj.get "name" errs1 = None.
Proof.
  split; [reflexivity|].
  destruct (processIssues_lookup Shared.normalizeFormPath Sample.formIssues
              [("email", {| path := "email"; errors := ["Required"] |})] eq_refl)
    as [errs1 [Hrun Hget]].
  exists errs1. split; [exact Hrun|].
  rewrite !Hget. repeat split; reflexivity.
Defined.

Lemma processIssues_keys_witness :
  plainPaths (recordedAll Shared.normalizeFormPath Sample.arrayIssues) = true
  /\ exists errs1 idx,
      processIssues Shared.normalizeFormPath Sample.arrayIssues
        [("email", {| path := "email"; errors := ["Required"] |})]
      = Normal errs1
      /\ map fst (Object_entries errs1) = (idx ++ ["email"] ++ [""])%list
      /\ Permutation idx ["0"].
Proof.
  split; [reflexivity|].
  destruct (processIssues_keys Shared.normalizeFormPath Sample.arrayIssues
              [("email", {| path := "email"; errors := ["Required"] |})] eq_refl)
    as [errs1 [idx [Hrun [Hkeys [Hperm _]]]]].
  exists errs1, idx. split; [exact Hrun|]. split; [exact Hkeys | exact Hperm].
Defined.

Lemma processIssues_well_formed_witness :
  plainPaths (recordedAll Shared.normalizeFormPath Sample.formIssues) = true
  /\ (forall k e,
        In (k, e) [("email", {| path := "email"; errors := ["Required"] |})] ->
        path e = k)
  /\ exists errs1,
      processIssues Shared.normalizeFormPath Sample.formIssues
        [("email", {| path := "email"; errors := ["Required"] |})]
      = Normal errs1
      /\ forall k e, In (k, e) errs1 -> path e = k.
Proof.
  assert (Hp : forall k e,
             In (k, e) [("email", {| path := "email"; errors := ["Required"] |})] ->
             path e = k).
  { intros k e [H|[]]. now inversion H. }
  split; [reflexivity|]. split; [exact Hp|].
  apply (processIssues_well_formed Shared.normalizeFormPath Sample.formIssues _
           eq_refl Hp).
Defined.

Lemma parse_keeps_every_message_witness :
  Sample.failWith Sample.formIssues Sample.formSchema Sample.badForm JsUndefined
  = Normal (SafeParseError Sample.formIssues)
  /\ plainPaths (recordedAll Shared.normalizeFormPath Sample.formIssues) = true
  /\ forallb (fun i => negb (isUnion i)) Sample.formIssues = true
  /\ exists es,
      parse Shared.normalizeFormPath (Sample.failWith Sample.formIssues)
        Sample.formSchema JsUndefined Sample.badForm
      = Normal {| value := None; output_errors := es |}
      /\ List.length (flat_map errors es) = 3.
Proof.
  split; [reflexivity|]. split; [reflexivity|]. split; [reflexivity|].
  destruct (parse_keeps_every_message Shared.normalizeFormPath
              (Sample.failWith Sample.formIssues) Sample.formSchema JsUndefined
              Sample.badForm Sample.formIssues eq_refl eq_refl)
    as [es [Hparse [_ Hplain]]].
  exists es. split; [exact Hparse|].
  exact (proj2 (Hplain eq_refl)).
Defined.

Lemma parse_entry_count_witness :
  Sample.failWith Sample.arrayIssues (ZodArray (ZodLeaf ZodString))
    (JsArray [JsNumber 5]) JsUndefined
  = Normal (SafeParseError Sample.arrayIssues)
  /\ plainPaths (recordedAll Shared.normalizeFormPath Sample.arrayIssues) = true
  /\ forallb (fun i => negb (isUnion i)) Sample.arrayIssues = true
  /\ NoDup (map (normalizedPath Shared.normalizeFormPath) Sample.arrayIssues)
  /\ exists es,
      parse Shared.normalizeFormPath (Sample.failWith Sample.arrayIssues)
        (ZodArray (ZodLeaf ZodString)) JsUndefined (JsArray [JsNumber 5])
      = Normal {| value := None; output_errors := es |}
      /\ List.length es = 2.
Proof.
  assert (Hnd : NoDup (map (normalizedPath Shared.normalizeFormPath) Sample.arrayIssues)).
  { vm_compute. repeat (constructor; [simpl; intuition discriminate|]). constructor. }
  split; [reflexivity|]. split; [reflexivity|]. split; [reflexivity|].
  split; [exact Hnd|].
  destruct (parse_entry_count Shared.normalizeFormPath
              (Sample.failWith Sample.arrayIssues) (ZodArray (ZodLeaf ZodString))
              JsUndefined (JsArray [JsNumber 5]) Sample.arrayIssues eq_refl eq_refl)
    as [es [Hparse [_ [_ [_ Hplain]]]]].
  exists es. split; [exact Hparse|].
  exact (proj2 (Hplain eq_refl) Hnd).
Defined.

Lemma parse_inherited_path_witness :
  Sample.failWith Sample.inheritedIssues (ZodObject [("toString", ZodLeaf ZodString)])
    (JsObject []) JsUndefined
  = Normal (SafeParseError Sample.inheritedIssues)
  /\ plainPaths (recordedAll Shared.normalizeFormPath Sample.inheritedIssues) = false
  /\ parse Shared.normalizeFormPath (Sample.failWith Sample.inheritedIssues)
       (ZodObject [("toString", ZodLeaf ZodString)]) JsUndefined (JsObject [])
     = Throw TypeError.
Proof.
  split; [reflexivity|]. split; [reflexivity|].
  apply (proj2 (proj1 (parse_inherited_path Shared.normalizeFormPath
                         (Sample.failWith Sample.inheritedIssues)
                         (ZodObject [("toString", ZodLeaf ZodString)]) JsUndefined
                         (JsObject []) Sample.inheritedIssues eq_refl))).
  reflexivity.
Defined.

Lemma segments_bracket_index_witness :
  onlyDigits "0" = true
  /\ segments "items[0].name" = ["items"; "0"; "name"]
  /\ segments "items[0].name" = segments "items.0..name".
Proof.
  split; [reflexivity|].
  destruct (segments_bracket_index "items" "0" ".name" eq_refl) as [H1 H2].
  split; [exact H1 | exact H2].
Defined.

Lemma issue_path_round_trip_witness :
  Forall (fun s => plainKey (segString s) = true /\ segString s <> "")
    [PKey "items"; PIndex 0; PKey "name"]
  /\ segments (join "." [PKey "items"; PIndex 0; PKey "name"])
     = ["items"; "0"; "name"].
Proof.
  assert (H : Forall (fun s => plainKey (segString s) = true /\ segString s <> "")
                [PKey "items"; PIndex 0; PKey "name"]).
  { repeat constructor; discriminate. }
  split; [exact H|].
  apply (issue_path_round_trip [PKey "items"; PIndex 0; PKey "name"] H).
Defined.

Lemma getSchemaForPath_dot_witness :
  isObjectSchema Zod3 Sample.listSchema = true
  /\ Shared.isNotNestedPath "items[0].name" = false
  /\ getSchemaForPath Zod3 Shared.isNotNestedPath Shared.cleanupNonNestedPath
       Shared.isIndex "items[0].name" Sample.listSchema
     = walk Zod3 Shared.isIndex 2 0 ["name"]
         (walk Zod3 Shared.isIndex 3 0 ["items"; "0"] (Some Sample.listSchema)).
Proof.
  split; [reflexivity|]. split; [reflexivity|].
  apply (getSchemaForPath_dot Zod3 Shared.isNotNestedPath Shared.cleanupNonNestedPath
           Shared.isIndex "items[0]" "name" Sample.listSchema);
    reflexivity.
Defined.

Lemma describe_non_object_root_witness :
  isObjectSchema Zod3 (ZodArray (ZodLeaf ZodString)) = false
  /\ "0" <> ""
  /\ describe Zod3 Shared.isNotNestedPath Shared.cleanupNonNestedPath Shared.isIndex
       Sample.isOptional true (ZodArray (ZodLeaf ZodString)) (Some "0")
     = (Normal notFound, []).
Proof.
  split; [reflexivity|]. split; [discriminate|].
  apply (proj2 (describe_non_object_root Zod3 Shared.isNotNestedPath
                  Shared.cleanupNonNestedPath Shared.isIndex Sample.isOptional true
                  (ZodArray (ZodLeaf ZodString)) "0" eq_refl)).
  discriminate.
Defined.

Lemma getSchemaForPath_missing_field_witness :
  isObjectSchema Zod3 Sample.listSchema = true
  /\ Shared.isNotNestedPath "items[0].title.size" = false
  /\ segments "items[0].title.size" = (["items"; "0"] ++ "title" :: ["size"])%list
  /\ walk Zod3 Shared.isIndex 3 0 ["items"; "0"] (Some Sample.listSchema)
     = Some Sample.itemSchema
  /\ isObjectSchema Zod3 Sample.itemSchema = true
  /\ Obj.get "title" (shape Sample.itemSchema) = None
  /\ Obj.inheritedName "title" = false
  /\ getSchemaForPath Zod3 Shared.isNotNestedPath Shared.cleanupNonNestedPath
       Shared.isIndex "items[0].title.size" Sample.listSchema
     = None.
Proof.
  repeat (split; [reflexivity|]).
  apply (getSchemaForPath_missing_field Zod3 Shared.isNotNestedPath
           Shared.cleanupNonNestedPath Shared.isIndex
           "items[0].title.size" Sample.listSchema ["items"; "0"] "title" ["size"]
           Sample.itemSchema);
    reflexivity.
Defined.

Lemma getSchemaForPath_inherited_member_witness :
  isObjectSchema Zod3 Sample.listSchema = true
  /\ Shared.isNotNestedPath "items[0].toString.size" = false
  /\ segments "items[0].toString.size"
     = (["items"; "0"] ++ "toString" :: ["size"])%list
  /\ walk Zod3 Shared.isIndex 3 0 ["items"; "0"] (Some Sample.listSchema)
     = Some Sample.itemSchema
  /\ isObjectSchema Zod3 Sample.itemSchema = true
  /\ Obj.get "toString" (shape Sample.itemSchema) = None
  /\ Obj.inheritedName "toString" = true
  /\ getSchemaForPath Zod3 Shared.isNotNestedPath Shared.cleanupNonNestedPath
       Shared.isIndex "items[0].toString.size" Sample.listSchema
     = Some (Inherited "toString")
  /\ fst (describe Zod3 Shared.isNotNestedPath Shared.cleanupNonNestedPath
            Shared.isIndex Sample.isOptional true Sample.listSchema
            (Some "items[0].toString.size"))
     = Normal notFound.
Proof.
  do 7 (split; [reflexivity|]).
  destruct (getSchemaForPath_inherited_member Zod3 Shared.isNotNestedPath
              Shared.cleanupNonNestedPath Shared.isIndex Sample.isOptional true
              Sample.listSchema "items[0].toString.size" ["items"; "0"] "toString"
              ["size"] Sample.itemSchema
              eq_refl eq_refl eq_refl eq_refl eq_refl eq_refl eq_refl)
    as [Hget [Hdescribe _]].
  split; [exact Hget | exact Hdescribe].
Defined.

Lemma getSchemaForPath_ignores_segments_witness :
  (isObjectSchema Zod3 Sample.listSchema = true
   /\ Shared.isNotNestedPath "name.first.initial" = false
   /\ segments "name.first.initial" = (["name"] ++ ["first"; "initial"])%list
   /\ walk Zod3 Shared.isIndex 2 0 ["name"] (Some Sample.listSchema)
      = Some (ZodLeaf ZodString)
   /\ isObjectSchema Zod3 (ZodLeaf ZodString) = false
   /\ isArraySchema Zod3 (ZodLeaf ZodString) = false
   /\ getSchemaForPath Zod3 Shared.isNotNestedPath Shared.cleanupNonNestedPath
        Shared.isIndex "name.first.initial" Sample.listSchema
      = Some (ZodLeaf ZodString))
  /\ (Shared.isNotNestedPath "items.first" = false
      /\ segments "items.first" = (["items"] ++ ["first"])%list
      /\ walk Zod3 Shared.isIndex 2 0 ["items"] (Some Sample.listSchema)
         = Some (ZodArray Sample.itemSchema)
      /\ Forall (fun q => Shared.isIndex q = false) ["first"]
      /\ getSchemaForPath Zod3 Shared.isNotNestedPath Shared.cleanupNonNestedPath
           Shared.isIndex "items.first" Sample.listSchema
         = Some (ZodArray Sample.itemSchema)).
Proof.
  split.
  - repeat (split; [reflexivity|]).
    apply (getSchemaForPath_ignores_segments Zod3 Shared.isNotNestedPath
             Shared.cleanupNonNestedPath Shared.isIndex
             "name.first.initial" Sample.listSchema ["name"] ["first"; "initial"]
             (ZodLeaf ZodString));
      try reflexivity.
    now left.
  - assert (H : Forall (fun q => Shared.isIndex q = false) ["first"])
      by (repeat constructor).
    repeat (split; [reflexivity|]). split; [exact H|].
    apply (getSchemaForPath_ignores_segments Zod3 Shared.isNotNestedPath
             Shared.cleanupNonNestedPath Shared.isIndex
             "items.first" Sample.listSchema ["items"] ["first"]
             (ZodArray Sample.itemSchema));
      try reflexivity.
    now right.
Defined.

Lemma describe_guarantees_witness :
  exists d warnings,
    describe Zod3 Shared.isNotNestedPath Shared.cleanupNonNestedPath Shared.isIndex
      Sample.isOptionalThrowing true Sample.eventSchema (Some "when")
    = (Normal d, warnings)
    /\ d = notFound /\ List.length warnings = 1.
Proof.
  destruct (describe_guarantees Zod3 Shared.isNotNestedPath
              Shared.cleanupNonNestedPath Shared.isIndex Sample.isOptionalThrowing
              true Sample.eventSchema (Some "when"))
    as [d [w [Hd [_ [_ Hw]]]]].
  exists d, w. split; [exact Hd|].
  apply Hw. vm_compute in Hd. inversion Hd. discriminate.
Defined.

Lemma describe_path_found_witness :
  "items[0].name" <> ""
  /\ getSchemaForPath Zod3 Shared.isNotNestedPath Shared.cleanupNonNestedPath
       Shared.isIndex "items[0].name" Sample.listSchema
     = Some (ZodLeaf ZodString)
  /\ isOptional Sample.isOptional (ZodLeaf ZodString) = Normal false
  /\ describe Zod3 Shared.isNotNestedPath Shared.cleanupNonNestedPath Shared.isIndex
       Sample.isOptional true Sample.listSchema (Some "items[0].name")
     = (Normal {| required := true; exists_ := true |}, []).
Proof.
  assert (Hne : "items[0].name" <> "") by discriminate.
  split; [exact Hne|]. split; [reflexivity|]. split; [reflexivity|].
  destruct (describe_path_found Zod3 Shared.isNotNestedPath
              Shared.cleanupNonNestedPath Shared.isIndex Sample.isOptional true
              Sample.listSchema "items[0].name" Hne)
    as [d [w [Hd [_ Hfound]]]].
  rewrite Hd.
  destruct (Hfound (ZodLeaf ZodString) false eq_refl eq_refl) as [-> ->].
  reflexivity.
Defined.

Lemma profile_fields_return : forall key field,
    In (key, field) (shape Sample.profileSchema) ->
    returns (fieldDefault Zod3 field) = true.
Proof.
  intros key field [H|[H|[H|[]]]]; inversion H; reflexivity.
Defined.

Lemma profile_fields_distinct : NoDup (map fst (shape Sample.profileSchema)).
Proof.
  simpl. repeat (constructor; [simpl; intuition discriminate|]). constructor.
Defined.

Lemma getDefaults_keys_witness :
  NoDup (map fst (shape Sample.profileSchema))
  /\ (forall key field,
        In (key, field) (shape Sample.profileSchema) ->
        returns (fieldDefault Zod3 field) = true)
  /\ exists props,
      getDefaults Zod3 Sample.profileSchema = Normal (JsObject props)
      /\ map fst props = ["name"; "address"; "age"].
Proof.
  split; [exact profile_fields_distinct|]. split; [exact profile_fields_return|].
  destruct (getDefaults_keys Zod3 (shape Sample.profileSchema)
              profile_fields_distinct profile_fields_return)
    as [props [Hprops [Hkeys _]]].
  exists props. split; [exact Hprops|]. rewrite Hkeys. reflexivity.
Defined.

Lemma getDefaults_field_values_witness :
  NoDup (map fst (shape Sample.profileSchema))
  /\ (forall key field,
        In (key, field) (shape Sample.profileSchema) ->
        returns (fieldDefault Zod3 field) = true)
  /\ exists props,
      getDefaults Zod3 Sample.profileSchema = Normal (JsObject props)
      /\ option_map Normal (Obj.get "name" props)
         = Some (Normal (JsString "anonymous"))
      /\ option_map Normal (Obj.get "address" props)
         = Some (Normal (JsObject [("city", JsString "Oslo"); ("zip", JsUndefined)]))
      /\ option_map Normal (Obj.get "age" props) = Some (Normal JsUndefined)
      /\ option_map (@Normal JsValue) (Obj.get "email" props) = None.
Proof.
  split; [exact profile_fields_distinct|]. split; [exact profile_fields_return|].
  destruct (getDefaults_field_values Zod3 (shape Sample.profileSchema)
              profile_fields_distinct profile_fields_return)
    as [props [Hprops Hget]].
  exists props. split; [exact Hprops|].
  rewrite !Hget. repeat split; reflexivity.
Defined.

Lemma getDefaults_raises_witness :
  In ("name", ZodDefault (ZodLeaf ZodString) (Normal (JsString "anonymous")))
    (shape Sample.profileSchema)
  /\ returns (getDefaults Zod4 Sample.profileSchema) = false
  /\ In ("id", ZodDefault (ZodLeaf ZodString) (Throw (JsString "no id")))
       (shape Sample.throwingDefaultSchema)
  /\ returns (getDefaults Zod3 Sample.throwingDefaultSchema) = false.
Proof.
  assert (H1 : In ("name", ZodDefault (ZodLeaf ZodString)
                             (Normal (JsString "anonymous")))
                 (shape Sample.profileSchema)) by now left.
  assert (H2 : In ("id", ZodDefault (ZodLeaf ZodString) (Throw (JsString "no id")))
                 (shape Sample.throwingDefaultSchema)) by now left.
  split; [exact H1|]. split.
  - exact (proj1 (getDefaults_raises Zod4 (shape Sample.profileSchema) "name")
             _ _ eq_refl H1).
  - split; [exact H2|].
    exact (proj1 (proj2 (getDefaults_raises Zod3 (shape Sample.throwingDefaultSchema)
                           "id"))
             _ _ H2).
Defined.

Lemma cast_raises_iff_witness :
  (exists e0, Sample.rejectAll Sample.profileSchema (JsNumber 5) = Throw e0)
  /\ getDefaults Zod4 Sample.profileSchema = Throw TypeError
  /\ cast Zod4 Shared.isObject Shared.merge Sample.rejectAll Sample.profileSchema
       (JsNumber 5)
     = Throw TypeError.
Proof.
  assert (H : exists e0, Sample.rejectAll Sample.profileSchema (JsNumber 5) = Throw e0)
    by (now exists (JsString "ZodError")).
  split; [exact H|]. split; [reflexivity|].
  apply (proj2 (cast_raises_iff Zod4 Shared.isObject Shared.merge Sample.rejectAll
                  Sample.profileSchema (JsNumber 5) TypeError)).
  split; [exact H | reflexivity].
Defined.

Lemma cast_non_object_schema_witness :
  isZodObject (ZodArray (ZodLeaf ZodString)) = false
  /\ Shared.isObject JsUndefined = false
  /\ Sample.rejectAll (ZodArray (ZodLeaf ZodString)) (JsObject [("a", JsNumber 1)])
     = Throw (JsString "ZodError")
  /\ cast Zod4 Shared.isObject Shared.merge Sample.rejectAll
       (ZodArray (ZodLeaf ZodString)) (JsObject [("a", JsNumber 1)])
     = Normal (JsObject [("a", JsNumber 1)]).
Proof.
  repeat (split; [reflexivity|]).
  apply (proj2 (cast_non_object_schema Zod4 Shared.isObject Shared.merge
                  Sample.rejectAll (ZodArray (ZodLeaf ZodString))
                  (JsObject [("a", JsNumber 1)]) (JsString "ZodError")
                  eq_refl eq_refl eq_refl)).
Defined.
